(** * cachingFetch.ts: a keyed fetch cache with in-flight de-duplication
      and a serialize / hydrate pair

    The development embeds [src/caching-fetch-library/cachingFetch.ts]:
    the module-level [cache] map, the coordinator [fetchAndCache], the hook
    [useCachingFetch] (its [useState] initialisers and its effect),
    [preloadCachingFetch], [serializeCache], [initializeCache] and
    [wipeCache].  Asynchrony is modelled by explicit state passing: a
    promise is a handle into a table of outstanding retrievals, and the
    network answering a retrieval is a step of its own. *)

From Stdlib Require Import Ascii.
From stdpp Require Import gmap strings list fin_maps pretty.

Local Open Scope string_scope.
#[local] Set Warnings "-register-all".

(** ** JavaScript values *)

(** What [JSON.parse] and [Response.json] can produce.  Numbers are kept
    abstract: the library never computes with them. *)
Inductive json (number : Type) : Type :=
  | JNull
  | JBool (b : bool)
  | JNum (n : number)
  | JStr (s : string)
  | JArr (items : list (json number))
  | JObj (fields : list (string * json number)).

Arguments JNull {number}.
Arguments JBool {number} b.
Arguments JNum {number} n.
Arguments JStr {number} s.
Arguments JArr {number} items.
Arguments JObj {number} fields.

(** The platform functions the module calls but does not define. *)
Class JsRuntime := {
  number : Type;
  (** [ToBoolean] on a number: [false] exactly for a zero. *)
  Number_truthy : number → bool;
  (** [String(n)], as used by [new Error(n)]. *)
  Number_toString : number → string;
  (** [JSON.parse]; [None] stands for the [SyntaxError] it throws. *)
  JSON_parse : string → option (json number);
  (** [JSON.stringify] on a tree without [undefined]. *)
  JSON_stringify : json number → string;
}.

(** An [Error] object, as far as a consumer can tell two of them apart
    without comparing identities: its class name and its message. *)
Record Error := mkError { name : string; message : string }.

(** [new Error(m)] *)
Definition new_Error (m : string) : Error := {| name := "Error"; message := m |}.

(** How a block of statements ends. *)
Inductive completion := Normal | Abrupt.

Section CachingFetch.
Context `{JsRuntime}.

(** The TypeScript type [unknown], restricted to what can flow into
    [CacheEntry.data]: [undefined] or a JSON value ([null] included). *)
Inductive unknown :=
  | undefined
  | val (j : json number).

(** [ToBoolean] *)
Definition truthy (j : json number) : bool :=
  match j with
  | JNull => false
  | JBool b => b
  | JNum n => Number_truthy n
  | JStr EmptyString => false
  | JStr (String _ _) => true
  | JArr _ | JObj _ => true
  end.

Definition ToBoolean (v : unknown) : bool :=
  match v with
  | undefined => false
  | val j => truthy j
  end.

(** [v ?? null] *)
Definition or_null (v : unknown) : unknown :=
  match v with
  | undefined | val JNull => val JNull
  | val j => val j
  end.

(** [v] is neither [undefined] nor [null]. *)
Definition present (v : unknown) : bool :=
  match v with
  | undefined | val JNull => false
  | val _ => true
  end.

(** First binding of [k] in the own properties of an object. *)
Fixpoint assoc (k : string) (fields : list (string * json number))
  : option (json number) :=
  match fields with
  | [] => None
  | (k', v) :: rest => if decide (k' = k) then Some v else assoc k rest
  end.

(** [String(j)]; [None] is the [TypeError] of a value that has no
    primitive form.  An object is written by the [toString] it finds: an own
    property of that name, which in a parsed value is never a function,
    hides the inherited one, and [valueOf] gives back the object, so the
    conversion throws.  An array joins its elements with commas, writing
    nothing for a [null] element, and throws where an element does. *)
Fixpoint ToString (j : json number) : option string :=
  match j with
  | JNull => Some "null"
  | JBool true => Some "true"
  | JBool false => Some "false"
  | JNum n => Some (Number_toString n)
  | JStr s => Some s
  | JArr items =>
      (fix join (l : list (json number)) : option string :=
         match l with
         | [] => Some EmptyString
         | x :: l' =>
             match match x with JNull => Some EmptyString | _ => ToString x end with
             | None => None
             | Some sx =>
                 match l' with
                 | [] => Some sx
                 | _ :: _ =>
                     match join l' with
                     | None => None
                     | Some rest => Some (sx ++ "," ++ rest)
                     end
                 end
             end
         end) items
  | JObj fields =>
      match assoc "toString" fields with
      | Some _ => None
      | None => Some "[object Object]"
      end
  end.

(** [value.k] for a property name that no prototype defines ([data],
    [error]).  [None] is the [TypeError] of reading a property of
    [null]. *)
Definition get (value : json number) (k : string) : option unknown :=
  match value with
  | JNull => None
  | JObj fields =>
      Some (match assoc k fields with Some x => val x | None => undefined end)
  | JBool _ | JNum _ | JStr _ | JArr _ => Some undefined
  end.

(** [Object.entries(v)]; [None] is the [TypeError] on [null].  A string
    lists its characters and an array its elements, both under their
    decimal indices. *)
Definition Object_entries (v : json number)
  : option (list (string * json number)) :=
  match v with
  | JNull => None
  | JBool _ | JNum _ => Some []
  | JStr s =>
      Some (imap (λ i c, (pretty i, JStr (String c EmptyString)))
                 (String.list_ascii_of_string s))
  | JArr items => Some (imap (λ i x, (pretty i, x)) items)
  | JObj fields => Some fields
  end.

(** Create or overwrite the own property [k] of an object given by its
    own properties in order. *)
Fixpoint obj_put {A} (o : list (string * A)) (k : string) (v : A)
  : list (string * A) :=
  match o with
  | [] => [(k, v)]
  | (k', v') :: o' =>
      if decide (k' = k) then (k, v) :: o' else (k', v') :: obj_put o' k v
  end.

(** ** The cache *)

(** [type CacheEntry]; the optional [promise] is the handle of the
    retrieval that is in flight for the key. *)
Record CacheEntry := {
  data : unknown;
  error : option Error;
  promise : option nat;
}.

(** [cached?.data] *)
Definition data_of (cached : option CacheEntry) : unknown :=
  match cached with
  | Some e => data e
  | None => undefined
  end.

(** [ToBoolean] on an [Error | null]: an object is truthy. *)
Definition is_error (e : option Error) : bool :=
  match e with
  | Some _ => true
  | None => false
  end.

(** [cached?.data || cached?.error] *)
Definition has_data_or_error (cached : option CacheEntry) : bool :=
  ToBoolean (data_of cached) || is_error (cached ≫= error).

(** *** serializeCache *)

(** The object literal [{ data: value.data, error: ... }]. *)
Definition snapshot_entry (value : CacheEntry) : list (string * unknown) :=
  [ ("data", data value);
    ("error", val (match error value with
                   | Some e => JStr (message e)
                   | None => JNull
                   end)) ].

(** [serializable[key] = v]: writing to the name [__proto__] runs the
    setter inherited from [Object.prototype] and creates no own
    property. *)
Definition obj_assign {A} (o : list (string * A)) (key : string) (v : A)
  : list (string * A) :=
  if decide (key = "__proto__") then o else obj_put o key v.

(** The [for ... of cache.entries()] loop. *)
Definition serializable (cache : gmap string CacheEntry)
  : list (string * list (string * unknown)) :=
  foldl (λ o kv, obj_assign o kv.1 (snapshot_entry kv.2)) [] (map_to_list cache).

(** [JSON.stringify] leaves out a property whose value is [undefined]. *)
Definition own_json (r : list (string * unknown)) : json number :=
  JObj (omap (λ kv, match kv.2 with
                    | undefined => None
                    | val j => Some (kv.1, j)
                    end) r).

Definition snapshot_json (cache : gmap string CacheEntry) : json number :=
  JObj (prod_map id own_json <$> serializable cache).

Definition serializeCache (cache : gmap string CacheEntry) : string :=
  JSON_stringify (snapshot_json cache).

(** *** initializeCache *)

(** [value.error ? new Error(value.error) : null]; the outer [None] is
    the [TypeError] thrown when [new Error] cannot convert its argument
    to a string. *)
Definition rewrap (e : unknown) : option (option Error) :=
  match e with
  | undefined => Some None
  | val j =>
      if truthy j then m ← ToString j; Some (Some (new_Error m)) else Some None
  end.

(** The entry built in the [forEach] callback; [None] when it throws:
    reading [value.data] of [null], or [new Error(value.error)]. *)
Definition hydrate (value : json number) : option CacheEntry :=
  d ← get value "data";
  e ← get value "error";
  err ← rewrap e;
  Some {| data := d; error := err; promise := None |}.

(** [Object.entries(parsed).forEach(...)]: entries are installed in order
    until one throws. *)
Fixpoint forEach_set (entries : list (string * json number))
    (cache : gmap string CacheEntry) : gmap string CacheEntry * completion :=
  match entries with
  | [] => (cache, Normal)
  | (url, value) :: rest =>
      match hydrate value with
      | None => (cache, Abrupt)
      | Some e => forEach_set rest (<[url := e]> cache)
      end
  end.

(** The body of the [try] block. *)
Definition initializeCache_try (serializedCache : string)
    (cache : gmap string CacheEntry) : gmap string CacheEntry * completion :=
  match JSON_parse serializedCache with
  | None => (cache, Abrupt)
  | Some parsed =>
      match Object_entries parsed with
      | None => (cache, Abrupt)
      | Some entries => forEach_set entries cache
      end
  end.

(** [initializeCache]: the empty string returns at once, and [catch {}]
    turns an abrupt end of the [try] block into a normal one. *)
Definition initializeCache (serializedCache : string)
    (cache : gmap string CacheEntry) : gmap string CacheEntry * completion :=
  match serializedCache with
  | EmptyString => (cache, Normal)
  | String _ _ => ((initializeCache_try serializedCache cache).1, Normal)
  end.

(** *** wipeCache *)

Definition wipeCache (cache : gmap string CacheEntry) : gmap string CacheEntry := ∅.

(** ** Retrievals *)

(** What the network does to one [fetch(url)]. *)
Inductive FetchResult :=
  (** [fetch] itself rejects. *)
  | Rejected (e : Error)
  (** A response arrives with [res.ok], [res.status] and the result of
      [res.json()]: the decoder's error or the decoded payload. *)
  | Responded (ok : bool) (status : N) (body : Error + json number).

(** The entry written by the [.then] / [.catch] chain of [fetchAndCache]. *)
Definition outcome (r : FetchResult) : CacheEntry :=
  match r with
  | Rejected e => {| data := val JNull; error := Some e; promise := None |}
  | Responded ok status body =>
      if ok then
        match body with
        | inl e => {| data := val JNull; error := Some e; promise := None |}
        | inr d => {| data := val d; error := None; promise := None |}
        end
      else
        {| data := val JNull;
           error := Some (new_Error ("Request failed with status " ++ pretty status));
           promise := None |}
  end.

(** The [{ isLoading, data, error }] a component holds. *)
Record Snapshot := {
  s_data : unknown;
  s_error : option Error;
  isLoading : bool;
}.

(** One component calling [useCachingFetch(url)]: its three [useState]
    cells, the [isMounted] flag of its effect, and the promise its [.then]
    callback is registered on. *)
Record Hook := {
  h_url : string;
  view : Snapshot;
  isMounted : bool;
  awaiting : option nat;
}.

(** The module's world: the [cache] map, every [fetch(url)] issued so far
    (a promise is the index of its request), the retrievals not yet
    answered, and the mounted components. *)
Record State := {
  cache : gmap string CacheEntry;
  requests : list string;
  inflight : gmap nat string;
  hooks : gmap nat Hook;
}.

Definition initial : State :=
  {| cache := ∅; requests := []; inflight := ∅; hooks := ∅ |}.

Definition with_cache (c : gmap string CacheEntry) (st : State) : State :=
  {| cache := c; requests := requests st; inflight := inflight st; hooks := hooks st |}.

Definition with_hooks (h : gmap nat Hook) (st : State) : State :=
  {| cache := cache st; requests := requests st; inflight := inflight st; hooks := h |}.

(** *** fetchAndCache *)

Definition fetchAndCache (url : string) (st : State) : nat * State :=
  let existing := cache st !! url in
  match existing ≫= promise with
  | Some p => (p, st)
  | None =>
      let p := length (requests st) in
      (p, {| cache := <[url := {| data := or_null (data_of existing);
                                  error := None;
                                  promise := Some p |}]> (cache st);
             requests := requests st ++ [url];
             inflight := <[p := url]> (inflight st);
             hooks := hooks st |})
  end.

(** *** useCachingFetch *)

(** The three [useState] initialisers of the first render. *)
Definition useCachingFetch_initial (url : string)
    (cache : gmap string CacheEntry) : Snapshot :=
  let cached := cache !! url in
  {| s_data := or_null (data_of cached);
     s_error := cached ≫= error;
     isLoading := match cached with
                  | None => true
                  | Some e => negb (ToBoolean (data e)) && negb (is_error (error e))
                  end |}.

(** The first render of component [c]. *)
Definition render (c : nat) (url : string) (st : State) : State :=
  with_hooks (<[c := {| h_url := url;
                        view := useCachingFetch_initial url (cache st);
                        isMounted := true;
                        awaiting := None |}]> (hooks st)) st.

(** The [.then] callback of the effect, run when the promise settles. *)
Definition on_settled (cache : gmap string CacheEntry) (h : Hook) : Hook :=
  if isMounted h then
    let updated := cache !! h_url h in
    {| h_url := h_url h;
       view := {| s_data := or_null (data_of updated);
                  s_error := updated ≫= error;
                  isLoading := false |};
       isMounted := isMounted h;
       awaiting := None |}
  else
    {| h_url := h_url h; view := view h; isMounted := false; awaiting := None |}.

(** The effect of hook [h]; it answers with the promise it waits for, if
    any. *)
Definition useCachingFetch_effect (c : nat) (h : Hook) (st : State)
  : option nat * State :=
  let cachedEntry := cache st !! h_url h in
  if has_data_or_error cachedEntry then
    (None,
     with_hooks (<[c := {| h_url := h_url h;
                           view := {| s_data := data_of cachedEntry;
                                      s_error := cachedEntry ≫= error;
                                      isLoading := false |};
                           isMounted := true;
                           awaiting := None |}]> (hooks st)) st)
  else
    let '(p, st') := fetchAndCache (h_url h) st in
    let waiting :=
      {| h_url := h_url h;
         view := {| s_data := s_data (view h);
                    s_error := s_error (view h);
                    isLoading := true |};
         isMounted := true;
         awaiting := Some p |} in
    (Some p,
     with_hooks (<[c := match inflight st' !! p with
                        | Some _ => waiting
                        | None => on_settled (cache st') waiting
                        end]> (hooks st')) st').

(** Component [c] runs its effect. *)
Definition effect (c : nat) (st : State) : option nat * State :=
  match hooks st !! c with
  | Some h => useCachingFetch_effect c h st
  | None => (None, st)
  end.

(** A component calls [useCachingFetch(url)] and is committed: first
    render, then effect. *)
Definition useCachingFetch (c : nat) (url : string) (st : State)
  : option nat * State :=
  effect c (render c url st).

(** The cleanup function of the effect. *)
Definition cleanup (c : nat) (st : State) : State :=
  match hooks st !! c with
  | Some h =>
      with_hooks (<[c := {| h_url := h_url h; view := view h;
                            isMounted := false; awaiting := awaiting h |}]>
                    (hooks st)) st
  | None => st
  end.

(** *** preloadCachingFetch *)

(** It answers with the promise it awaits, if any. *)
Definition preloadCachingFetch (url : string) (st : State) : option nat * State :=
  let cached := cache st !! url in
  if has_data_or_error cached then (None, st)
  else let '(p, st') := fetchAndCache url st in (Some p, st').

(** *** The network answers *)

(** Retrieval [p] completes with [r]: the chain writes the outcome under
    the url [p] was started for, and the callbacks registered on [p]
    run. *)
Definition settle (p : nat) (r : FetchResult) (st : State) : State :=
  match inflight st !! p with
  | None => st
  | Some url =>
      let cache' := <[url := outcome r]> (cache st) in
      {| cache := cache';
         requests := requests st;
         inflight := delete p (inflight st);
         hooks := (λ h, if decide (awaiting h = Some p)
                        then on_settled cache' h else h) <$> hooks st |}
  end.

(** ** Vocabulary of the properties *)

(** A consumer reaches the coordinator through the hook (component [c]),
    through [preloadCachingFetch], or directly. *)
Inductive Caller :=
  | ViaHook (c : nat)
  | ViaPreload
  | Direct.

#[global] Instance Caller_eq_dec : EqDecision Caller.
Proof. solve_decision. Defined.

(** One call for [url]; it answers with the promise the caller holds
    afterwards, if any. *)
Definition call (url : string) (who : Caller) (st : State) : option nat * State :=
  match who with
  | ViaHook c => useCachingFetch c url st
  | ViaPreload => preloadCachingFetch url st
  | Direct => let '(p, st') := fetchAndCache url st in (Some p, st')
  end.

(** Calls made one after the other with nothing else in between: the
    callers of one pending window. *)
Fixpoint calls (url : string) (who : list Caller) (st : State)
  : list (option nat) * State :=
  match who with
  | [] => ([], st)
  | w :: rest =>
      let '(p, st1) := call url w st in
      let '(ps, st2) := calls url rest st1 in
      (p :: ps, st2)
  end.

(** What a mounted component shows once its retrieval has settled with
    entry [e]. *)
Definition settled_view (e : CacheEntry) : Snapshot :=
  {| s_data := or_null (data e); s_error := error e; isLoading := false |}.

(** Invariant I2 on one entry: [data] and [error] are not both there, and
    neither is there while a promise is. *)
Definition I2 (e : CacheEntry) : Prop :=
  (present (data e) = true → error e = None)
  ∧ (is_Some (promise e) → present (data e) = false ∧ error e = None).

(** The part of I2 the mutations keep: [data] and [error] are not both
    there, and [error] is not there while a promise is. *)
Definition exclusive (e : CacheEntry) : Prop :=
  (present (data e) = true → error e = None)
  ∧ (is_Some (promise e) → error e = None).

(** A snapshot value that does not carry both a [data] and an [error]. *)
Definition one_sided (value : json number) : Prop :=
  ∀ d e, get value "data" = Some d → get value "error" = Some e →
         present d = true → ToBoolean e = false.



(** An error that carries nothing but its message. *)
Definition message_only (e : Error) : Prop := e = new_Error (message e).

(** The entry of a key whose first retrieval, [p], is in flight. *)
Definition pending_entry (p : nat) : CacheEntry :=
  {| data := val JNull; error := None; promise := Some p |}.

(** A mounted component that shows the loading state and waits for [p]. *)
Definition waiting_hook (url : string) (p : nat) : Hook :=
  {| h_url := url;
     view := {| s_data := val JNull; s_error := None; isLoading := true |};
     isMounted := true;
     awaiting := Some p |}.

(** A promise stored in an entry is an outstanding retrieval for the key
    of that entry, and an outstanding retrieval is the request it was
    numbered after. *)
Definition well_formed (st : State) : Prop :=
  (∀ k e p, cache st !! k = Some e → promise e = Some p → inflight st !! p = Some k)
  ∧ (∀ p k, inflight st !! p = Some k → requests st !! p = Some k).

(** Everything that can happen to the module. *)
Inductive Op :=
  | OpCall (url : string) (who : Caller)
  | OpSettle (p : nat) (r : FetchResult)
  | OpInitialize (serializedCache : string)
  | OpWipe
  | OpCleanup (c : nat).

Definition step (op : Op) (st : State) : State :=
  match op with
  | OpCall url who => (call url who st).2
  | OpSettle p r => settle p r st
  | OpInitialize s => with_cache (initializeCache s (cache st)).1 st
  | OpWipe => with_cache (wipeCache (cache st)) st
  | OpCleanup c => cleanup c st
  end.

Definition run (ops : list Op) (st : State) : State := foldl (λ st op, step op st) st ops.

(** A hydration is one-sided when no entry of its snapshot carries both a
    [data] and an [error]; the other operations are unconstrained. *)
Definition one_sided_op (op : Op) : Prop :=
  match op with
  | OpInitialize s =>
      ∀ parsed entries, JSON_parse s = Some parsed →
        Object_entries parsed = Some entries →
        Forall (λ kv, one_sided kv.2) entries
  | _ => True
  end.

(** The JSON form of one entry in the snapshot. *)
Definition entry_json (e : CacheEntry) : json number := own_json (snapshot_entry e).

(** What is left of an entry once it has been through a snapshot: its
    [data]; a plain [Error] with its message, unless the message is empty;
    no promise. *)
Definition rehydrated (e : CacheEntry) : CacheEntry :=
  {| data := data e;
     error := match error e with
              | Some err =>
                  match message err with
                  | EmptyString => None
                  | String _ _ => Some (new_Error (message err))
                  end
              | None => None
              end;
     promise := None |}.

(** The network answers retrieval [p]. *)
Definition settles (p : nat) (op : Op) : Prop :=
  match op with
  | OpSettle q _ => q = p
  | _ => False
  end.

(** Component [c] is rendered anew. *)
Definition remounts (c : nat) (op : Op) : Prop :=
  match op with
  | OpCall _ (ViaHook c') => c' = c
  | _ => False
  end.

(** The keys an operation may write: the key called for, the key of the
    retrieval that settles, the keys of a hydrated snapshot, every key for
    a wipe. *)
Definition touches (op : Op) (st : State) (k : string) : Prop :=
  match op with
  | OpCall url _ => k = url
  | OpSettle p _ => inflight st !! p = Some k
  | OpInitialize s =>
      ∃ parsed entries, JSON_parse s = Some parsed
        ∧ Object_entries parsed = Some entries ∧ k ∈ entries.*1
  | OpWipe => True
  | OpCleanup _ => False
  end.

(** The operations of a page that neither hydrates nor wipes: components
    and preloads call, components unmount, and the network answers with
    an error or with a payload that is truthy. *)
Definition steady (op : Op) : Prop :=
  match op with
  | OpCall _ (ViaHook _) | OpCall _ ViaPreload | OpCleanup _ => True
  | OpSettle _ r => has_data_or_error (Some (outcome r)) = true
  | OpCall _ Direct | OpInitialize _ | OpWipe => False
  end.

(** No url was requested twice, and every url that was requested has an
    entry that is pending or a hit. *)
Definition fetched_once (st : State) : Prop :=
  NoDup (requests st)
  ∧ ∀ k, k ∈ requests st →
      ∃ e, cache st !! k = Some e
           ∧ (is_Some (promise e) ∨ has_data_or_error (Some e) = true).

End CachingFetch.

(** ** A reference runtime

    An executable instance of [JsRuntime] on which the model can be run:
    numbers are the integers, printed in decimal, and the JSON text is
    the usual one (objects, arrays, strings with backslash escapes,
    integer literals, [true], [false], [null]). *)
Module Reference.

Definition c_quote : ascii := Ascii.ascii_of_nat 34.
Definition c_backslash : ascii := Ascii.ascii_of_nat 92.

(** Writes a JSON text with apostrophes where the double quotes go. *)
Fixpoint js (s : string) : string :=
  match s with
  | EmptyString => EmptyString
  | String c s' => String (if Ascii.eqb c "'" then c_quote else c) (js s')
  end.

Fixpoint escape (s : string) : string :=
  match s with
  | EmptyString => EmptyString
  | String c s' =>
      if Ascii.eqb c c_quote || Ascii.eqb c c_backslash
      then String c_backslash (String c (escape s'))
      else String c (escape s')
  end.

Definition quote (s : string) : string :=
  String c_quote (escape s ++ String c_quote EmptyString).

Fixpoint print (j : json Z) : string :=
  match j with
  | JNull => "null"
  | JBool true => "true"
  | JBool false => "false"
  | JNum n => pretty n
  | JStr s => quote s
  | JArr items =>
      "[" ++ (fix go (l : list (json Z)) : string :=
                match l with
                | [] => EmptyString
                | x :: l' =>
                    print x ++ match l' with [] => EmptyString | _ :: _ => "," ++ go l' end
                end) items ++ "]"
  | JObj fields =>
      "{" ++ (fix go (l : list (string * json Z)) : string :=
                match l with
                | [] => EmptyString
                | (k, x) :: l' =>
                    quote k ++ ":" ++ print x
                      ++ match l' with [] => EmptyString | _ :: _ => "," ++ go l' end
                end) fields ++ "}"
  end.

Definition is_ws (c : ascii) : bool :=
  Ascii.eqb c " " || Ascii.eqb c (Ascii.ascii_of_nat 10)
  || Ascii.eqb c (Ascii.ascii_of_nat 13) || Ascii.eqb c (Ascii.ascii_of_nat 9).

Fixpoint skip_ws (l : list ascii) : list ascii :=
  match l with
  | c :: l' => if is_ws c then skip_ws l' else l
  | [] => []
  end.

(** Reads the characters of [lit] off the front of [l]. *)
Fixpoint strip (lit : string) (l : list ascii) : option (list ascii) :=
  match lit with
  | EmptyString => Some l
  | String a lit' =>
      match l with
      | c :: l' => if Ascii.eqb a c then strip lit' l' else None
      | [] => None
      end
  end.

(** The characters of a string literal after its opening quote. *)
Fixpoint read_string (l : list ascii) : option (string * list ascii) :=
  match l with
  | [] => None
  | c :: l' =>
      if Ascii.eqb c c_quote then Some (EmptyString, l')
      else if Ascii.eqb c c_backslash then
        match l' with
        | e :: l'' =>
            if Ascii.eqb e c_quote || Ascii.eqb e c_backslash || Ascii.eqb e "/" then
              '(s, rest) ← read_string l''; Some (String e s, rest)
            else None
        | [] => None
        end
      else '(s, rest) ← read_string l'; Some (String c s, rest)
  end.

(** The position of [c] in [ds], counted from [n]. *)
Fixpoint position (ds : string) (c : ascii) (n : Z) : option Z :=
  match ds with
  | EmptyString => None
  | String d ds' => if Ascii.eqb d c then Some n else position ds' c (n + 1)%Z
  end.

Definition digit (c : ascii) : option Z := position "0123456789" c 0.

Fixpoint read_digits (acc : Z) (l : list ascii) : Z * list ascii :=
  match l with
  | c :: l' =>
      match digit c with
      | Some d => read_digits (10 * acc + d) l'
      | None => (acc, l)
      end
  | [] => (acc, [])
  end.

Definition read_number (l : list ascii) : option (json Z * list ascii) :=
  match l with
  | c :: l' =>
      if Ascii.eqb c "-" then
        match l' with
        | d :: _ =>
            match digit d with
            | Some _ => let '(n, rest) := read_digits 0 l' in Some (JNum (- n)%Z, rest)
            | None => None
            end
        | [] => None
        end
      else
        match digit c with
        | Some _ => let '(n, rest) := read_digits 0 l in Some (JNum n, rest)
        | None => None
        end
  | [] => None
  end.

Fixpoint read_value (fuel : nat) (l : list ascii) : option (json Z * list ascii) :=
  match fuel with
  | O => None
  | S fuel =>
      match skip_ws l with
      | [] => None
      | c :: rest =>
          if Ascii.eqb c "n" then rest' ← strip "ull" rest; Some (JNull, rest')
          else if Ascii.eqb c "t" then rest' ← strip "rue" rest; Some (JBool true, rest')
          else if Ascii.eqb c "f" then rest' ← strip "alse" rest; Some (JBool false, rest')
          else if Ascii.eqb c c_quote then
            '(s, rest') ← read_string rest; Some (JStr s, rest')
          else if Ascii.eqb c "[" then
            match strip "]" (skip_ws rest) with
            | Some rest' => Some (JArr [], rest')
            | None => '(items, rest') ← read_items fuel rest; Some (JArr items, rest')
            end
          else if Ascii.eqb c "{" then
            match strip "}" (skip_ws rest) with
            | Some rest' => Some (JObj [], rest')
            | None => '(fields, rest') ← read_fields fuel [] rest; Some (JObj fields, rest')
            end
          else read_number (c :: rest)
      end
  end
with read_items (fuel : nat) (l : list ascii) : option (list (json Z) * list ascii) :=
  match fuel with
  | O => None
  | S fuel =>
      '(x, rest) ← read_value fuel l;
      match skip_ws rest with
      | [] => None
      | c :: rest' =>
          if Ascii.eqb c "," then
            '(xs, rest'') ← read_items fuel rest'; Some (x :: xs, rest'')
          else if Ascii.eqb c "]" then Some ([x], rest')
          else None
      end
  end
with read_fields (fuel : nat) (seen : list (string * json Z)) (l : list ascii)
    : option (list (string * json Z) * list ascii) :=
  match fuel with
  | O => None
  | S fuel =>
      rest ← strip (String c_quote EmptyString) (skip_ws l);
      '(k, rest1) ← read_string rest;
      rest2 ← strip ":" (skip_ws rest1);
      '(x, rest3) ← read_value fuel rest2;
      let seen' := obj_put seen k x in
      match skip_ws rest3 with
      | [] => None
      | c :: rest4 =>
          if Ascii.eqb c "," then read_fields fuel seen' rest4
          else if Ascii.eqb c "}" then Some (seen', rest4)
          else None
      end
  end.

Definition parse (s : string) : option (json Z) :=
  let l := String.list_ascii_of_string s in
  '(j, rest) ← read_value (S (length l)) l;
  match skip_ws rest with
  | [] => Some j
  | _ :: _ => None
  end.

#[export] Instance runtime : JsRuntime := {|
  number := Z;
  Number_truthy n := negb (n =? 0)%Z;
  Number_toString n := pretty n;
  JSON_parse := parse;
  JSON_stringify := print;
|}.

End Reference.

(** ** A runtime whose numbers have the infinities

    [JSON.parse] gives an infinity for a literal beyond the range of a
    double, as for the body [1e999], and [JSON.stringify] writes [null] for
    an infinity.  The text itself is read and written by the reference
    runtime. *)
Module Doubles.

Inductive double :=
  | Fin (z : Z)
  | Inf (negative : bool).

(** The least magnitude that rounds to an infinity. *)
Definition overflow : Z := (2 ^ 1024 - 2 ^ 970)%Z.

Definition of_literal (z : Z) : double :=
  if (overflow <=? Z.abs z)%Z then Inf (z <? 0)%Z else Fin z.

Fixpoint read_back (j : json Z) : json double :=
  match j with
  | JNull => JNull
  | JBool b => JBool b
  | JNum z => JNum (of_literal z)
  | JStr s => JStr s
  | JArr items => JArr (List.map read_back items)
  | JObj fields => JObj (List.map (λ kv, (kv.1, read_back kv.2)) fields)
  end.

Fixpoint written (j : json double) : json Z :=
  match j with
  | JNull => JNull
  | JBool b => JBool b
  | JNum (Fin z) => JNum z
  | JNum (Inf _) => JNull
  | JStr s => JStr s
  | JArr items => JArr (List.map written items)
  | JObj fields => JObj (List.map (λ kv, (kv.1, written kv.2)) fields)
  end.

Definition runtime : JsRuntime := {|
  number := double;
  Number_truthy n := match n with Fin z => negb (z =? 0)%Z | Inf _ => true end;
  Number_toString n :=
    match n with
    | Fin z => pretty z
    | Inf false => "Infinity"
    | Inf true => "-Infinity"
    end;
  JSON_parse s := read_back <$> Reference.parse s;
  JSON_stringify j := Reference.print (written j);
|}.

End Doubles.

(** ** Concrete stores and states *)
Module Examples.
Import Reference.

Definition resolved (d : json Z) : CacheEntry :=
  {| data := val d; error := None; promise := None |}.

Definition failed (e : Error) : CacheEntry :=
  {| data := val JNull; error := Some e; promise := None |}.


(** A store every entry of which keeps its message and its key. *)
Definition store_people : gmap string CacheEntry :=
  <["/people" := resolved (JArr [JStr "Ada"; JStr "Alan"])]>
    (<["/missing" := failed (new_Error "Request failed with status 404")]> ∅).

(** A snapshot entry carrying both a payload and an error message. *)
Definition snapshot_both : string := js "{'/k':{'data':1,'error':'boom'}}".

Definition snapshot_people : string :=
  js "{'/people':{'data':['Ada','Alan'],'error':null}}".

(** [/n] has been preloaded and the server answered [0]. *)
Definition state_zero : State :=
  settle 0 (Responded true 200 (inr (JNum 0%Z)))
    (preloadCachingFetch "/n" initial).2.

(** A retrieval for [/items] is in flight. *)
Definition state_pending : State := (preloadCachingFetch "/items" initial).2.

(** The decoder rejecting a body that is not JSON. *)
Definition decode_error : Error :=
  mkError "SyntaxError" "Unexpected token < in JSON at position 0".

(** Two components ask for [/a], the server answers, a preload asks
    again, and the first component unmounts. *)
Definition page_without_ssr : list Op :=
  [ OpCall "/a" (ViaHook 1); OpCall "/a" (ViaHook 2);
    OpSettle 0 (Responded true 200 (inr (JStr "x")));
    OpCall "/a" ViaPreload; OpCleanup 1 ].

(** While [/items] is in flight the store is wiped, hydrated and asked
    again. *)
Definition meanwhile : list Op :=
  [ OpWipe; OpInitialize snapshot_people; OpCall "/items" (ViaHook 1) ].

(** A snapshot that is an array. *)
Definition snapshot_array : string := js "[{'data':1,'error':null},7]".

(** The result of a successful answer carrying a string. *)
Definition answer (payload : string) : FetchResult :=
  Responded true 200 (inr (JStr payload)).

(** Component [1] has asked for [/items] and waits. *)
Definition state_waiting : State := (useCachingFetch 1 "/items" initial).2.

(** The entries of the snapshot of [store_people], as read back. *)
Definition people_read_back : list (string * json Z) :=
  [ ("/missing",
     JObj [("data", JNull); ("error", JStr "Request failed with status 404")]);
    ("/people",
     JObj [("data", JArr [JStr "Ada"; JStr "Alan"]); ("error", JNull)]) ].

(** An entry with an empty message after an ordinary one, and after a
    [null] one. *)
Definition snapshot_empty_error_second : string :=
  js "{'/a':{'data':1,'error':null},'/x':{'data':null,'error':''}}".

Definition snapshot_null_first : string :=
  js "{'/a':null,'/x':{'data':null,'error':''}}".

(** A snapshot whose second entry has an error that [new Error] cannot
    convert to a string. *)
Definition snapshot_unprintable_error : string :=
  js "{'/a':{'data':1,'error':null},'/b':{'data':2,'error':{'toString':1}},'/c':{'data':3,'error':null}}".


(** Component [1] waits for [/items]; the store is wiped; then component
    [2] asks for [/items]. *)
Definition state_wiped : State := step OpWipe state_waiting.

Definition state_two_waiting : State := (calls "/items" [ViaHook 2] state_wiped).2.

(** [/items] and [/other] are both in flight. *)
Definition state_two_pending : State := (preloadCachingFetch "/other" state_pending).2.

End Examples.

(** * Properties *)

(** ** The hydrator *)
Section Hydrator.
Context `{JsRuntime}.
Implicit Types (c : gmap string CacheEntry) (l : list (string * json number)).

(** The callback returns an entry exactly when neither of its two reads
    nor [new Error] throws. *)
Lemma hydrate_Some (value : json number) (e : CacheEntry) :
  hydrate value = Some e ↔
  ∃ d er err, get value "data" = Some d ∧ get value "error" = Some er
              ∧ rewrap er = Some err
              ∧ e = {| data := d; error := err; promise := None |}.
Proof.
  unfold hydrate. split.
  - destruct (get value "data") as [d|]; [|done].
    destruct (get value "error") as [er|]; [|done]. simpl.
    destruct (rewrap er) as [err|] eqn:Herr; [|done]. simpl.
    intros [= <-]. by exists d, er, err.
  - intros (d & er & err & -> & -> & Herr & ->). simpl. by rewrite Herr.
Qed.

(** What a list of snapshot entries installs does not depend on the store
    it is installed into: it is laid over the store. *)
Lemma forEach_set_union l c :
  (forEach_set l c).1 = (forEach_set l ∅).1 ∪ c.
Proof.
  revert c. induction l as [|[u v] l IH]; intros c; simpl.
  - by rewrite (left_id_L ∅ (∪)).
  - destruct (hydrate v) as [e|]; simpl.
    + rewrite (IH (<[u:=e]> c)), (IH (<[u:=e]> ∅)).
      rewrite insert_empty, (insert_union_singleton_l c).
      by rewrite (assoc_L (∪)).
    + by rewrite (left_id_L ∅ (∪)).
Qed.

Lemma initializeCache_try_union s c :
  (initializeCache_try s c).1 = (initializeCache_try s ∅).1 ∪ c.
Proof.
  unfold initializeCache_try.
  destruct (JSON_parse s) as [parsed|]; simpl.
  - destruct (Object_entries parsed) as [l|]; simpl.
    + apply forEach_set_union.
    + by rewrite (left_id_L ∅ (∪)).
  - by rewrite (left_id_L ∅ (∪)).
Qed.

Lemma initializeCache_union s c :
  (initializeCache s c).1 = (initializeCache s ∅).1 ∪ c.
Proof.
  destruct s as [|a s]; simpl.
  - by rewrite (left_id_L ∅ (∪)).
  - apply initializeCache_try_union.
Qed.

(** The [catch {}] swallows whatever the [try] block throws. *)
Lemma initializeCache_normal s c : (initializeCache s c).2 = Normal.
Proof. by destruct s. Qed.

(** A key that the entries do not mention keeps its entry, whether or not
    the loop runs to its end. *)
Lemma forEach_set_other l c k :
  k ∉ l.*1 → (forEach_set l c).1 !! k = c !! k.
Proof.
  revert c. induction l as [|[u v] l IH]; intros c Hk; simpl; [done|].
  rewrite fmap_cons, not_elem_of_cons in Hk. destruct Hk as [Hne Hk]. simpl in Hne.
  destruct (hydrate v) as [e|]; simpl; [|done].
  rewrite IH by done. by rewrite lookup_insert_ne.
Qed.

(** An entry that the loop reaches and that no later entry overwrites is
    in the store afterwards. *)
Lemma forEach_set_reached l1 l2 k v e c :
  Forall (λ kv, is_Some (hydrate kv.2)) l1 →
  hydrate v = Some e →
  k ∉ l2.*1 →
  (forEach_set (l1 ++ (k, v) :: l2) c).1 !! k = Some e.
Proof.
  intros Hl1 Hv Hk. revert c.
  induction Hl1 as [|[u w] l1 [e' He'] _ IH]; intros c; simpl.
  - rewrite Hv. rewrite forEach_set_other by done. apply lookup_insert_eq.
  - simpl in He'. rewrite He'. apply IH.
Qed.

(** C4. Fail-open hydration: when [JSON.parse] throws on the snapshot
    string, [initializeCache] returns normally and the store it leaves is
    the store it found. *)
Theorem initializeCache_fail_open (s : string) (c : gmap string CacheEntry) :
  JSON_parse s = None → initializeCache s c = (c, Normal).
Proof.
  intros Hparse. destruct s as [|a s]; [done|].
  unfold initializeCache, initializeCache_try. by rewrite Hparse.
Qed.

(** C7. Hydration is idempotent: for every snapshot string, loading it a
    second time gives the store (and the normal return) of loading it
    once. *)
Theorem initializeCache_idempotent (s : string) (c : gmap string CacheEntry) :
  initializeCache s (initializeCache s c).1 = initializeCache s c.
Proof.
  apply injective_projections; [|by rewrite !initializeCache_normal].
  rewrite (initializeCache_union s (initializeCache s c).1).
  rewrite (initializeCache_union s c).
  by rewrite (assoc_L (∪)), (idemp_L (∪)).
Qed.

(** When the callback throws at an entry, the loop is over: what comes
    after that entry is not looked at. *)
Lemma forEach_set_stops (l1 rest : list (string * json number))
    (c : gmap string CacheEntry) :
  ¬ Forall (λ kv, is_Some (hydrate kv.2)) l1 →
  forEach_set (l1 ++ rest) c = forEach_set l1 c.
Proof.
  revert c. induction l1 as [|[u v] l1 IH]; intros c Hl1; simpl.
  - destruct Hl1. constructor.
  - destruct (hydrate v) as [e|] eqn:He; [|done].
    apply IH. intros Hrest. apply Hl1. constructor; [|done]. simpl. eauto.
Qed.

(** C10 (as amended). A snapshot entry whose [error] field is the empty
    string, and which the loop reaches (the callback throws at no earlier
    entry), is installed with [error = null]: the hydrator tests the
    message for truthiness before wrapping it, so an empty message does
    not survive.  When the callback throws at an earlier entry, the loop
    has stopped before this one and its key keeps what the store held.
    (The keys of a parsed object are distinct.) *)
Theorem initializeCache_empty_error
    (s : string) (c : gmap string CacheEntry) (parsed : json number)
    (l1 l2 : list (string * json number)) (k : string)
    (fields : list (string * json number)) :
  s ≠ EmptyString →
  JSON_parse s = Some parsed →
  Object_entries parsed = Some (l1 ++ (k, JObj fields) :: l2)%list →
  NoDup ((l1 ++ (k, JObj fields) :: l2)%list).*1 →
  assoc "error" fields = Some (JStr EmptyString) →
  (Forall (λ kv, is_Some (hydrate kv.2)) l1 →
   (initializeCache s c).1 !! k
   = Some {| data := match assoc "data" fields with
                     | Some x => val x
                     | None => undefined
                     end;
             error := None;
             promise := None |})
  ∧ (¬ Forall (λ kv, is_Some (hydrate kv.2)) l1 →
     (initializeCache s c).1 !! k = c !! k).
Proof.
  intros Hs Hparse Hentries Hnd Herr.
  rewrite fmap_app, fmap_cons in Hnd. simpl in Hnd.
  apply NoDup_app in Hnd as (_ & Hk1 & [Hk2 _]%NoDup_cons).
  assert (k ∉ l1.*1) as Hk1' by (intros Hin; apply (Hk1 k Hin), elem_of_cons; auto).
  destruct s as [|a s]; [done|].
  unfold initializeCache, initializeCache_try. rewrite Hparse, Hentries. simpl.
  split; intros Hl1.
  - apply forEach_set_reached; [done| |done].
    unfold hydrate. simpl. by rewrite Herr.
  - rewrite forEach_set_stops by done. by apply forEach_set_other.
Qed.

End Hydrator.

(** ** The serializer, and the round trip through the hydrator *)
Section Transfer.
Context `{JsRuntime}.
Implicit Types (c : gmap string CacheEntry).

Lemma obj_put_keys {A} (o : list (string * A)) k v k' :
  k' ∈ (obj_put o k v).*1 → k' = k ∨ k' ∈ o.*1.
Proof.
  induction o as [|[k0 v0] o IH]; simpl.
  - rewrite list_elem_of_singleton. auto.
  - case_decide; subst; simpl; rewrite !elem_of_cons; intros [?|?]; auto.
    destruct IH; auto.
Qed.

Lemma obj_put_NoDup {A} (o : list (string * A)) k v :
  NoDup o.*1 → NoDup (obj_put o k v).*1.
Proof.
  induction o as [|[k0 v0] o IH]; simpl; intros Hnd.
  - apply NoDup_singleton.
  - apply NoDup_cons in Hnd as [Hk0 Hnd].
    case_decide; subst; simpl; apply NoDup_cons; split; auto.
    intros [->|Hin]%obj_put_keys; done.
Qed.

Lemma obj_put_new {A} (o : list (string * A)) k v : (k, v) ∈ obj_put o k v.
Proof.
  induction o as [|[k0 v0] o IH]; simpl; [apply list_elem_of_singleton; done|].
  case_decide; subst; rewrite elem_of_cons; auto.
Qed.

Lemma obj_put_old {A} (o : list (string * A)) k v k' v' :
  k' ≠ k → (k', v') ∈ o → (k', v') ∈ obj_put o k v.
Proof.
  intros Hne. induction o as [|[k0 v0] o IH]; simpl.
  { intros Hin. by apply elem_of_nil in Hin. }
  rewrite elem_of_cons. intros [Heq|Hin].
  - inversion Heq; subst. rewrite decide_False by done. apply elem_of_cons; auto.
  - case_decide; subst; apply elem_of_cons; auto.
Qed.

Lemma obj_put_Forall {A} (P : A → Prop) (o : list (string * A)) k v :
  P v → Forall (λ kv, P kv.2) o → Forall (λ kv, P kv.2) (obj_put o k v).
Proof.
  intros Hv. induction 1 as [|[k0 v0] o Hv0 Ho IH]; simpl.
  - by constructor.
  - case_decide; constructor; auto.
Qed.

(** One turn of the loop of [serializeCache]. *)
Local Abbreviation turn :=
  (λ (o : list (string * list (string * unknown))) (kv : string * CacheEntry),
     obj_assign o kv.1 (snapshot_entry kv.2)).

Lemma loop_NoDup (l : list (string * CacheEntry)) acc :
  NoDup acc.*1 → NoDup (foldl turn acc l).*1.
Proof.
  revert acc. induction l as [|[k e] l IH]; intros acc Hacc; simpl; [done|].
  apply IH. unfold obj_assign. simpl. case_decide; [done|]. by apply obj_put_NoDup.
Qed.

Lemma loop_keeps (l : list (string * CacheEntry)) acc k v :
  (k, v) ∈ acc → k ∉ l.*1 → (k, v) ∈ foldl turn acc l.
Proof.
  revert acc. induction l as [|[k0 e0] l IH]; intros acc Hin Hk; simpl; [done|].
  rewrite fmap_cons, not_elem_of_cons in Hk. destruct Hk as [Hne Hk]. simpl in Hne.
  apply IH; [|done]. unfold obj_assign. simpl. case_decide; [done|].
  by apply obj_put_old.
Qed.

Lemma loop_writes (l : list (string * CacheEntry)) acc k e :
  NoDup l.*1 → (k, e) ∈ l → k ≠ "__proto__" →
  (k, snapshot_entry e) ∈ foldl turn acc l.
Proof.
  revert acc. induction l as [|[k0 e0] l IH]; intros acc Hnd Hin Hk; simpl.
  - by apply elem_of_nil in Hin.
  - rewrite fmap_cons in Hnd. apply NoDup_cons in Hnd as [Hk0 Hnd].
    apply elem_of_cons in Hin as [Heq|Hin].
    + inversion Heq; subst. apply loop_keeps; [|done].
      unfold obj_assign. simpl. rewrite decide_False by done. apply obj_put_new.
    + by apply IH.
Qed.

Lemma loop_values (l : list (string * CacheEntry)) acc :
  Forall (λ kv, ∃ e, kv.2 = snapshot_entry e) acc →
  Forall (λ kv, ∃ e, kv.2 = snapshot_entry e) (foldl turn acc l).
Proof.
  revert acc. induction l as [|[k0 e0] l IH]; intros acc Hacc; simpl; [done|].
  apply IH. unfold obj_assign. simpl. case_decide; [done|].
  apply (obj_put_Forall (λ r, ∃ e, r = snapshot_entry e)); eauto.
Qed.

(** The serialized form of every entry, except one under [__proto__], is
    in the snapshot, under its key and once. *)
Lemma serializable_spec c :
  NoDup (serializable c).*1
  ∧ Forall (λ kv, ∃ e, kv.2 = snapshot_entry e) (serializable c)
  ∧ ∀ k e, c !! k = Some e → k ≠ "__proto__" →
           (k, snapshot_entry e) ∈ serializable c.
Proof.
  unfold serializable. split; [|split].
  - apply loop_NoDup. constructor.
  - apply loop_values. constructor.
  - intros k e Hke Hk. apply loop_writes; [apply NoDup_fst_map_to_list| |done].
    by apply elem_of_map_to_list.
Qed.

(** What the hydrator makes of one serialized entry. *)
Lemma hydrate_snapshot_entry (e : CacheEntry) :
  hydrate (own_json (snapshot_entry e))
  = Some {| data := data e;
            error := match error e with
                     | Some err =>
                         match message err with
                         | EmptyString => None
                         | String _ _ => Some (new_Error (message err))
                         end
                     | None => None
                     end;
            promise := None |}.
Proof.
  unfold hydrate, own_json, snapshot_entry. simpl.
  destruct (data e) as [|d]; simpl; destruct (error e) as [err|]; simpl;
    try done; by destruct (message err).
Qed.


End Transfer.

(** ** The coordinator and its callers *)
Section Coordinator.
Context `{JsRuntime}.
Implicit Types (st : State) (url : string) (p c : nat) (who : Caller).

(** The de-duplication branch: a stored promise is handed out as it is. *)
Lemma fetchAndCache_reuse url st e p :
  cache st !! url = Some e → promise e = Some p →
  fetchAndCache url st = (p, st).
Proof. intros He Hp. unfold fetchAndCache. rewrite He. simpl. by rewrite Hp. Qed.

(** Without a stored promise a retrieval is started. *)
Lemma fetchAndCache_start url st :
  cache st !! url ≫= promise = None →
  fetchAndCache url st
  = (length (requests st),
     {| cache := <[url := {| data := or_null (data_of (cache st !! url));
                             error := None;
                             promise := Some (length (requests st)) |}]> (cache st);
        requests := requests st ++ [url];
        inflight := <[length (requests st) := url]> (inflight st);
        hooks := hooks st |}).
Proof. intros Hp. unfold fetchAndCache. by rewrite Hp. Qed.

(** The first caller of a key that has no entry starts the retrieval. *)
Lemma call_first url who st :
  cache st !! url = None →
  call url who st
  = (Some (length (requests st)),
     {| cache := <[url := pending_entry (length (requests st))]> (cache st);
        requests := requests st ++ [url];
        inflight := <[length (requests st) := url]> (inflight st);
        hooks := match who with
                 | ViaHook c =>
                     <[c := waiting_hook url (length (requests st))]> (hooks st)
                 | _ => hooks st
                 end |}).
Proof.
  intros Hnone. destruct who as [c| |]; simpl.
  - unfold useCachingFetch, effect, render. simpl. rewrite lookup_insert_eq.
    unfold useCachingFetch_effect, useCachingFetch_initial. simpl.
    rewrite Hnone. simpl.
    rewrite fetchAndCache_start by (simpl; by rewrite Hnone).
    simpl. rewrite lookup_insert_eq, Hnone. simpl.
    unfold with_hooks. simpl. by rewrite insert_insert_eq.
  - unfold preloadCachingFetch. rewrite Hnone. simpl.
    rewrite fetchAndCache_start by (by rewrite Hnone).
    by rewrite Hnone.
  - rewrite fetchAndCache_start by (by rewrite Hnone).
    by rewrite Hnone.
Qed.

(** Every later caller of the window finds the pending entry and rides on
    its promise: nothing is fetched and the store is not written. *)
Lemma call_rider url who st p :
  cache st !! url = Some (pending_entry p) →
  inflight st !! p = Some url →
  call url who st
  = (Some p,
     match who with
     | ViaHook c => with_hooks (<[c := waiting_hook url p]> (hooks st)) st
     | _ => st
     end).
Proof.
  intros Hpend Hfly. destruct who as [c| |]; simpl.
  - unfold useCachingFetch, effect, render. simpl. rewrite lookup_insert_eq.
    unfold useCachingFetch_effect, useCachingFetch_initial. simpl.
    rewrite Hpend. simpl.
    rewrite (fetchAndCache_reuse url _ (pending_entry p) p) by done.
    simpl. rewrite Hfly. unfold with_hooks. simpl. by rewrite insert_insert_eq.
  - unfold preloadCachingFetch. rewrite Hpend. simpl.
    by rewrite (fetchAndCache_reuse url _ (pending_entry p) p).
  - by rewrite (fetchAndCache_reuse url _ (pending_entry p) p).
Qed.

Lemma calls_riders url (callers : list Caller) st p :
  cache st !! url = Some (pending_entry p) →
  inflight st !! p = Some url →
  Forall (λ r, r = Some p) (calls url callers st).1
  ∧ cache (calls url callers st).2 = cache st
  ∧ requests (calls url callers st).2 = requests st
  ∧ inflight (calls url callers st).2 = inflight st
  ∧ (∀ c, ViaHook c ∈ callers →
          hooks (calls url callers st).2 !! c = Some (waiting_hook url p))
  ∧ (∀ c, ViaHook c ∉ callers →
          hooks (calls url callers st).2 !! c = hooks st !! c).
Proof.
  revert st. induction callers as [|w rest IH]; intros st Hpend Hfly; simpl.
  { repeat split; try done. intros c Hc. by apply elem_of_nil in Hc. }
  rewrite (call_rider url w st p) by done.
  set (st1 := match w with
              | ViaHook c => with_hooks (<[c := waiting_hook url p]> (hooks st)) st
              | _ => st
              end).
  assert (cache st1 = cache st ∧ requests st1 = requests st
          ∧ inflight st1 = inflight st) as (Hc1 & Hr1 & Hf1)
    by (by destruct w).
  destruct (IH st1) as (Hps & Hc & Hr & Hf & Hin & Hout);
    [by rewrite Hc1|by rewrite Hf1|].
  destruct (calls url rest st1) as [ps st2] eqn:Hcalls. simpl in *.
  repeat split; try congruence.
  - by constructor.
  - intros c Hc'. destruct (decide (ViaHook c ∈ rest)) as [Hrest|Hrest]; [auto|].
    rewrite Hout by done. apply elem_of_cons in Hc' as [<-|?]; [|done].
    subst st1. simpl. apply lookup_insert_eq.
  - intros c Hc'. apply not_elem_of_cons in Hc' as [Hne Hrest].
    rewrite Hout by done. subst st1. destruct w as [c'| |]; simpl; try done.
    rewrite lookup_insert_ne; [done|]. congruence.
Qed.

(** The network answering [p] while the components of a window wait for
    it. *)
Lemma settle_window url st p r :
  inflight st !! p = Some url →
  cache (settle p r st) !! url = Some (outcome r)
  ∧ requests (settle p r st) = requests st
  ∧ ∀ c, hooks st !! c = Some (waiting_hook url p) →
         hooks (settle p r st) !! c
         = Some {| h_url := url; view := settled_view (outcome r);
                   isMounted := true; awaiting := None |}.
Proof.
  intros Hfly. unfold settle. rewrite Hfly. simpl.
  split; [apply lookup_insert_eq|]. split; [done|].
  intros c Hc. rewrite lookup_fmap, Hc. simpl.
  rewrite decide_True by done.
  unfold on_settled. simpl. by rewrite lookup_insert_eq.
Qed.

(** C1 (as amended). De-duplication within a pending window.  A key has no cache
    entry, and one or more consumers call for it one after the other
    through the hook, through [preloadCachingFetch] or through
    [fetchAndCache], with nothing else happening in between.  Then exactly
    one [fetch(url)] is issued; one retrieval more is in flight, the only
    one for the key unless an earlier one was still outstanding; the entry
    of the key holds that single promise (this holds after every call of
    the window, each non-empty prefix being a window itself); every caller
    is handed that promise; and when it settles, the store holds its
    outcome, no request has been added, and every component of the window
    shows that outcome with [isLoading = false]. *)
Theorem one_retrieval_per_window
    (st : State) (url : string) (callers : list Caller) :
  cache st !! url = None →
  callers ≠ [] →
  let p := length (requests st) in
  let st' := (calls url callers st).2 in
  requests st' = (requests st ++ [url])%list
  ∧ inflight st' = <[p := url]> (inflight st)
  ∧ cache st' = <[url := pending_entry p]> (cache st)
  ∧ ((∀ q, inflight st !! q ≠ Some url) →
     ∀ q, inflight st' !! q = Some url → q = p)
  ∧ Forall (λ r, r = Some p) (calls url callers st).1
  ∧ ∀ r, cache (settle p r st') !! url = Some (outcome r)
         ∧ requests (settle p r st') = requests st'
         ∧ ∀ c, ViaHook c ∈ callers →
                hooks (settle p r st') !! c
                = Some {| h_url := url; view := settled_view (outcome r);
                          isMounted := true; awaiting := None |}.
Proof.
  intros Hnone Hne p st'. subst st'.
  destruct callers as [|w rest]; [done|]. simpl.
  rewrite (call_first url w st) by done. fold p.
  set (st1 := {| cache := <[url := pending_entry p]> (cache st);
                 requests := requests st ++ [url];
                 inflight := <[p := url]> (inflight st);
                 hooks := match w with
                          | ViaHook c => <[c := waiting_hook url p]> (hooks st)
                          | _ => hooks st
                          end |}).
  destruct (calls_riders url rest st1 p) as (Hps & Hc & Hr & Hf & Hin & Hout);
    [apply lookup_insert_eq|apply lookup_insert_eq|].
  destruct (calls url rest st1) as [ps st2] eqn:Hcalls. simpl in *.
  split; [done|]. split; [done|]. split; [done|].
  split.
  { intros Hfresh q. rewrite Hf. simpl.
    intros [[? _]|[_ Hq]]%lookup_insert_Some; [done|]. by destruct (Hfresh q). }
  split; [by constructor|].
  intros r.
  destruct (settle_window url st2 p r) as (Hout1 & Hout2 & Hout3).
  { rewrite Hf. apply lookup_insert_eq. }
  split; [done|]. split; [done|].
  intros c Hc'. apply Hout3.
  destruct (decide (ViaHook c ∈ rest)) as [Hrest|Hrest]; [auto|].
  rewrite Hout by done. apply elem_of_cons in Hc' as [<-|?]; [|done].
  apply lookup_insert_eq.
Qed.

(** C9. A wipe does not reach a retrieval in flight.  If [wipeCache] runs
    while retrieval [p] for key [k] is outstanding, the store is empty
    after the wipe, and when [p] settles its handler writes the outcome
    all the same: the store then holds exactly the entry of [k], although
    no request has been issued since the wipe. *)
Theorem wipe_then_settle (st : State) (p : nat) (k : string) (r : FetchResult) :
  inflight st !! p = Some k →
  cache (step OpWipe st) = ∅
  ∧ cache (settle p r (step OpWipe st)) = {[ k := outcome r ]}
  ∧ requests (settle p r (step OpWipe st)) = requests st.
Proof.
  intros Hfly. simpl. split; [done|].
  unfold settle. simpl. rewrite Hfly. simpl.
  split; [|done]. unfold wipeCache. by rewrite insert_empty.
Qed.

(** C8 (as amended). A retrieval that completes unsuccessfully leaves a
    failed entry: [data] is [null] and [error] is the error object the
    chain caught, as it is.  For a non-success status that is a plain
    [Error] whose message is [Request failed with status <code>]; when
    decoding fails it is the decoder's own error, and when [fetch] rejects
    it is the rejection.  Only [serializeCache] reduces the error to its
    message. *)
Theorem failed_retrieval_entry (st : State) (p : nat) (url : string) :
  inflight st !! p = Some url →
  (∀ status body,
     cache (settle p (Responded false status body) st) !! url
     = Some {| data := val JNull;
               error := Some (new_Error ("Request failed with status "
                                         ++ pretty status));
               promise := None |})
  ∧ (∀ status e,
       cache (settle p (Responded true status (inl e)) st) !! url
       = Some {| data := val JNull; error := Some e; promise := None |})
  ∧ (∀ e,
       cache (settle p (Rejected e) st) !! url
       = Some {| data := val JNull; error := Some e; promise := None |})
  ∧ (∀ r entry e,
       cache (settle p r st) !! url = Some entry → error entry = Some e →
       snapshot_entry entry = [("data", val JNull); ("error", val (JStr (message e)))]).
Proof.
  intros Hfly.
  assert (∀ r, cache (settle p r st) !! url = Some (outcome r)) as Hset.
  { intros r. by destruct (settle_window url st p r Hfly). }
  repeat split; intros; rewrite ?Hset; try done.
  match goal with Hentry : cache (settle _ ?r _) !! _ = Some _ |- _ =>
    rewrite Hset in Hentry; injection Hentry as <-; rename r into res end.
  unfold snapshot_entry.
  destruct res as [e'|[|] status [e'|d]]; simpl in *; by simplify_eq.
Qed.

(** A call either issues no request and leaves the store as it is, or
    finds no promise for the key, issues one request and writes the
    pending entry. *)
Lemma call_effect url who st :
  (cache (call url who st).2 = cache st
   ∧ requests (call url who st).2 = requests st
   ∧ inflight (call url who st).2 = inflight st)
  ∨ (cache st !! url ≫= promise = None
     ∧ cache (call url who st).2
       = <[url := {| data := or_null (data_of (cache st !! url));
                     error := None;
                     promise := Some (length (requests st)) |}]> (cache st)
     ∧ requests (call url who st).2 = (requests st ++ [url])%list
     ∧ inflight (call url who st).2 = <[length (requests st) := url]> (inflight st)).
Proof.
  destruct who as [c| |]; simpl.
  - unfold useCachingFetch, effect, render. simpl. rewrite lookup_insert_eq.
    unfold useCachingFetch_effect. simpl.
    destruct (has_data_or_error (cache st !! url)); [by left|].
    unfold fetchAndCache. simpl.
    destruct (cache st !! url ≫= promise) eqn:Hp; simpl; auto.
  - unfold preloadCachingFetch.
    destruct (has_data_or_error (cache st !! url)); [by left|].
    unfold fetchAndCache.
    destruct (cache st !! url ≫= promise) eqn:Hp; simpl; auto.
  - unfold fetchAndCache.
    destruct (cache st !! url ≫= promise) eqn:Hp; simpl; auto.
Qed.

Lemma call_cache url who st :
  cache (call url who st).2 = cache st
  ∨ cache (call url who st).2
    = <[url := {| data := or_null (data_of (cache st !! url));
                  error := None;
                  promise := Some (length (requests st)) |}]> (cache st).
Proof. destruct (call_effect url who st) as [(? & _)|(_ & ? & _)]; auto. Qed.

(** While the entry of a key holds a promise, no call for the key issues
    a request or writes the store. *)
Lemma pending_starts_nothing url who st e p :
  cache st !! url = Some e → promise e = Some p →
  cache (call url who st).2 = cache st
  ∧ requests (call url who st).2 = requests st
  ∧ inflight (call url who st).2 = inflight st.
Proof.
  intros He Hp. destruct (call_effect url who st) as [?|(Hnone & _)]; [done|].
  rewrite He in Hnone. simpl in Hnone. congruence.
Qed.

(** Entries installed by the hydrator carry no promise. *)
Lemma forEach_set_promise (l : list (string * json number))
    (c : gmap string CacheEntry) k e :
  (forEach_set l c).1 !! k = Some e → c !! k = Some e ∨ promise e = None.
Proof.
  revert c. induction l as [|[u v] l IH]; intros c; simpl; [auto|].
  destruct (hydrate v) as [e'|] eqn:He'; simpl; [|auto].
  intros [Hk|Hk]%IH; [|auto].
  apply lookup_insert_Some in Hk as [[_ <-]|[_ Hk]]; [|auto].
  right. by apply hydrate_Some in He' as (d & er & err & _ & _ & _ & ->).
Qed.

Lemma initializeCache_promise s (c : gmap string CacheEntry) k e :
  (initializeCache s c).1 !! k = Some e → c !! k = Some e ∨ promise e = None.
Proof.
  destruct s as [|a s]; simpl; [auto|]. unfold initializeCache_try.
  destruct (JSON_parse (String a s)) as [parsed|]; simpl; [|auto].
  destruct (Object_entries parsed) as [l|]; simpl; [|auto].
  apply forEach_set_promise.
Qed.

(** Every operation keeps the bookkeeping of promises sound. *)
Lemma step_well_formed (op : Op) st : well_formed st → well_formed (step op st).
Proof.
  intros [Hlive Hlog]. destruct op as [url who|p r|s| |c]; simpl.
  - unfold well_formed.
    destruct (call_effect url who st)
      as [(-> & -> & ->)|(Hnone & -> & -> & ->)]; [done|].
    split.
    + intros k e q Hk Hq.
      apply lookup_insert_Some in Hk as [[<- <-]|[Hne Hk]]; simpl in *.
      * injection Hq as <-. apply lookup_insert_eq.
      * pose proof (Hlive k e q Hk Hq) as Hfly.
        rewrite lookup_insert_ne; [done|].
        intros <-. apply Hlog, lookup_lt_Some in Hfly. lia.
    + intros q k Hq. apply lookup_insert_Some in Hq as [[<- <-]|[Hne Hq]].
      * by rewrite lookup_app_r, Nat.sub_diag.
      * apply lookup_app_l_Some. by apply Hlog.
  - unfold settle. destruct (inflight st !! p) as [url|] eqn:Hp; [|done]. simpl.
    split; simpl.
    + intros k e q Hk Hq.
      apply lookup_insert_Some in Hk as [[<- <-]|[Hne Hk]].
      * by destruct r as [?|[|] ? [?|?]].
      * pose proof (Hlive k e q Hk Hq) as Hfly.
        rewrite lookup_delete_ne; [done|]. intros <-. congruence.
    + intros q k [_ Hq]%lookup_delete_Some. by apply Hlog.
  - split; [|done]. simpl. intros k e q Hk Hq.
    apply initializeCache_promise in Hk as [Hk|Hk]; [eauto|congruence].
  - split; [|done]. simpl. unfold wipeCache. intros k e q Hk.
    by rewrite lookup_empty in Hk.
  - unfold cleanup. by destruct (hooks st !! c).
Qed.

(** X11. In every state the module can reach from its initial one, by
    whatever calls, settlements, hydrations, wipes and unmounts, a promise
    found in an entry is a retrieval that is still outstanding and was
    started for the key of that entry, and every outstanding retrieval is
    the request whose number it bears. *)
Lemma reachable_well_formed (ops : list Op) : well_formed (run ops initial).
Proof.
  unfold run. induction ops as [|op ops IH] using rev_ind.
  - split; simpl.
    + intros k e p Hk. by rewrite lookup_empty in Hk.
    + intros p k Hp. by rewrite lookup_empty in Hp.
  - rewrite foldl_app. simpl. by apply step_well_formed.
Qed.

(** Whatever the network answers, the entry written is resolved or
    failed, never both, and carries no promise. *)
Lemma outcome_I2 (r : FetchResult) : I2 (outcome r).
Proof.
  destruct r as [e|[|] status [e|d]]; split; simpl; try done;
    by intros [? ?].
Qed.

Lemma I2_exclusive (e : CacheEntry) : I2 e → exclusive e.
Proof. intros [H1 H2]. split; [done|]. intros Hp. by destruct (H2 Hp). Qed.

Lemma hydrate_exclusive (value : json number) (e : CacheEntry) :
  one_sided value → hydrate value = Some e → exclusive e.
Proof.
  intros Hside (d & er & err & Hd & Her & Herr & ->)%hydrate_Some.
  split; simpl.
  - intros Hpres. specialize (Hside d er Hd Her Hpres).
    destruct er as [|j]; simpl in *; [congruence|].
    rewrite Hside in Herr. congruence.
  - by intros [? ?].
Qed.

Lemma forEach_set_exclusive (l : list (string * json number))
    (c : gmap string CacheEntry) :
  Forall (λ kv, one_sided kv.2) l →
  map_Forall (λ _, exclusive) c →
  map_Forall (λ _, exclusive) (forEach_set l c).1.
Proof.
  intros Hl. revert c. induction Hl as [|[u v] l Hv _ IH]; intros c Hc; simpl.
  - done.
  - destruct (hydrate v) as [e|] eqn:He; [|done].
    apply IH. apply map_Forall_insert_2; [|done].
    by apply (hydrate_exclusive v).
Qed.

(** Nothing made of nothing: [v ?? null] is [null] when [v] is absent. *)
Lemma or_null_absent (v : unknown) : present v = false → or_null v = val JNull.
Proof. by destruct v as [|[]]. Qed.

(** C5 (as amended). Every mutation of the store keeps [data] and [error]
    from being there together and keeps [error] absent while a promise is
    stored, provided a hydrated snapshot has no entry with both.  In
    addition, a completing retrieval writes an entry that satisfies I2 in
    full; a wipe leaves nothing that could violate it; and after a call
    for a key that held no [data], the entry of the key satisfies I2 in
    full: while it is pending it has neither [data] nor [error]. *)
Theorem mutations_keep_exclusive (op : Op) (st : State) :
  map_Forall (λ _, exclusive) (cache st) →
  one_sided_op op →
  map_Forall (λ _, exclusive) (cache (step op st))
  ∧ match op with
    | OpSettle p r => I2 (outcome r) ∧ promise (outcome r) = None
    | OpWipe => map_Forall (λ _, I2) (cache (step op st))
    | OpCall url who =>
        present (data_of (cache st !! url)) = false →
        ∀ e, cache (step op st) !! url = Some e → I2 e
    | OpInitialize _ | OpCleanup _ => True
    end.
Proof.
  intros Hst Hop. destruct op as [url who|p r|s| |c]; simpl.
  - pose proof (call_cache url who st) as Hcall. split.
    + destruct Hcall as [->| ->]; [done|].
      apply map_Forall_insert_2; [|done]. by split.
    + intros Habsent e. destruct Hcall as [->| ->].
      * intros He. rewrite He in Habsent. simpl in Habsent.
        destruct (Hst url e He) as [_ Hpend]. split; [congruence|auto].
      * rewrite lookup_insert_eq, or_null_absent by done.
        intros [= <-]. split; simpl; [done|]. by intros _.
  - split; [|split; [apply outcome_I2|by destruct r as [?|[|] ? [?|?]]]].
    unfold settle. destruct (inflight st !! p) as [url|]; [|done]. simpl.
    apply map_Forall_insert_2; [|done]. apply I2_exclusive, outcome_I2.
  - split; [|done].
    destruct s as [|a s]; [done|]. simpl in *.
    unfold initializeCache_try.
    destruct (JSON_parse (String a s)) as [parsed|] eqn:Hparse; [|done].
    destruct (Object_entries parsed) as [l|] eqn:Hentries; [|done].
    apply forEach_set_exclusive; [|done]. by apply (Hop parsed).
  - unfold wipeCache. split; apply map_Forall_empty.
  - split; [|done]. unfold cleanup. by destruct (hooks st !! c).
Qed.

(** *** Cache hits *)

(** An entry with truthy [data] or with an error is a hit for the hook and
    for [preloadCachingFetch]: neither reaches [fetchAndCache], no request
    is issued, and the store is as it was. *)
Lemma hit_starts_nothing url who st :
  has_data_or_error (cache st !! url) = true →
  who ≠ Direct →
  (call url who st).1 = None
  ∧ cache (call url who st).2 = cache st
  ∧ requests (call url who st).2 = requests st
  ∧ inflight (call url who st).2 = inflight st.
Proof.
  intros Hhit Hwho. destruct who as [c| |]; [| |done]; simpl.
  - unfold useCachingFetch, effect, render. simpl. rewrite lookup_insert_eq.
    unfold useCachingFetch_effect. simpl. by rewrite Hhit.
  - unfold preloadCachingFetch. by rewrite Hhit.
Qed.

(** On a hit the effect shows the entry as it is stored. *)
Lemma hit_shows_entry url c st e :
  cache st !! url = Some e →
  has_data_or_error (Some e) = true →
  hooks (useCachingFetch c url st).2 !! c
  = Some {| h_url := url;
            view := {| s_data := data e; s_error := error e; isLoading := false |};
            isMounted := true;
            awaiting := None |}.
Proof.
  intros He Hhit.
  unfold useCachingFetch, effect, render. simpl. rewrite lookup_insert_eq.
  unfold useCachingFetch_effect. simpl. rewrite He, Hhit. simpl.
  apply lookup_insert_eq.
Qed.

(** The first render of a hit shows the entry and does not load. *)
Lemma initial_snapshot_hit url (c : gmap string CacheEntry) :
  has_data_or_error (c !! url) = true →
  useCachingFetch_initial url c
  = {| s_data := or_null (data_of (c !! url));
       s_error := c !! url ≫= error;
       isLoading := false |}.
Proof.
  unfold has_data_or_error, useCachingFetch_initial.
  destruct (c !! url) as [e|]; simpl; [|done].
  intros Hhit. f_equal.
  destruct (ToBoolean (data e)); [done|]. simpl in *.
  by destruct (error e).
Qed.

(** The first render of a key with no entry, or with an entry that has
    neither [data] nor [error], shows the loading state. *)
Lemma initial_snapshot_miss url (c : gmap string CacheEntry) :
  present (data_of (c !! url)) = false →
  c !! url ≫= error = None →
  useCachingFetch_initial url c
  = {| s_data := val JNull; s_error := None; isLoading := true |}.
Proof.
  unfold useCachingFetch_initial.
  destruct (c !! url) as [e|]; simpl; [|done].
  intros Hd ->. by destruct (data e) as [|[]].
Qed.

End Coordinator.

(** ** Runs on the reference runtime *)
Section Runs.
Import Reference Examples.

(** Two components and a preload call for [/items] from the initial
    state: one request. *)
Lemma one_retrieval_per_window_witness :
  cache initial !! "/items" = None
  ∧ requests (calls "/items" [ViaHook 1; ViaHook 2; ViaPreload] initial).2
    = ["/items"]
  ∧ ∀ q, inflight (calls "/items" [ViaHook 1; ViaHook 2; ViaPreload] initial).2 !! q
         = Some "/items" → q = 0.
Proof.
  split; [reflexivity|].
  destruct (one_retrieval_per_window initial "/items"
              [ViaHook 1; ViaHook 2; ViaPreload])
    as (Hrequests & _ & _ & Honly & _); [reflexivity|discriminate|].
  split; [exact Hrequests|].
  apply Honly. intros q. simpl. by rewrite lookup_empty.
Defined.

(** C1 (as stated) fails: a retrieval for [/items] is in flight when the
    store is wiped, so that the key has no entry; the next caller starts a
    second retrieval while the first is still outstanding, and once both
    have settled the two components hold different data. *)
Lemma second_retrieval_after_wipe :
  cache state_wiped !! "/items" = None
  ∧ inflight state_two_waiting !! 0 = Some "/items"
  ∧ inflight state_two_waiting !! 1 = Some "/items"
  ∧ s_data ∘ view
      <$> hooks (settle 1 (answer "new") (settle 0 (answer "old") state_two_waiting))
          !! 1
    = Some (val (JStr "old"))
  ∧ s_data ∘ view
      <$> hooks (settle 1 (answer "new") (settle 0 (answer "old") state_two_waiting))
          !! 2
    = Some (val (JStr "new")).
Proof. repeat split; reflexivity. Qed.



Lemma initializeCache_fail_open_witness :
  JSON_parse "not valid json" = None
  ∧ initializeCache "not valid json" store_people = (store_people, Normal).
Proof.
  split; [reflexivity|].
  apply (initializeCache_fail_open "not valid json" store_people).
  reflexivity.
Defined.

(** C5 (as stated) fails: hydrating a snapshot entry that has both a
    payload and a message installs an entry with both, and a retrieval
    started for a key that holds the payload [0] keeps the payload in the
    pending entry. *)
Lemma I2_counterexample :
  map_Forall (λ _, I2) (cache initial)
  ∧ ¬ map_Forall (λ _, I2) (cache (step (OpInitialize snapshot_both) initial))
  ∧ map_Forall (λ _, I2) (cache state_zero)
  ∧ ¬ map_Forall (λ _, I2) (cache (step (OpCall "/n" ViaPreload) state_zero)).
Proof.
  split; [apply map_Forall_empty|split; [|split]].
  - intros Hall.
    assert (cache (step (OpInitialize snapshot_both) initial) !! "/k"
            = Some {| data := val (JNum 1%Z);
                      error := Some (new_Error "boom");
                      promise := None |}) as Hk by reflexivity.
    destruct (Hall _ _ Hk) as [Hboth _]. simpl in Hboth.
    by specialize (Hboth eq_refl).
  - intros k e Hk.
    assert (cache state_zero = {[ "/n" := resolved (JNum 0%Z) ]}) as Heq
      by reflexivity.
    rewrite Heq in Hk. apply lookup_singleton_Some in Hk as [_ <-].
    split; simpl; [done|]. by intros [? ?].
  - intros Hall.
    assert (cache (step (OpCall "/n" ViaPreload) state_zero) !! "/n"
            = Some {| data := val (JNum 0%Z); error := None; promise := Some 1 |})
      as Hk by reflexivity.
    destruct (Hall _ _ Hk) as [_ Hpend]. simpl in Hpend.
    by destruct (Hpend (mk_is_Some _ _ eq_refl)).
Qed.

Lemma mutations_keep_exclusive_witness :
  map_Forall (λ _, exclusive)
    (cache (step (OpInitialize snapshot_people) state_zero)).
Proof.
  apply (mutations_keep_exclusive (OpInitialize snapshot_people) state_zero).
  - assert (cache state_zero = {[ "/n" := resolved (JNum 0%Z) ]}) as ->
      by reflexivity.
    apply map_Forall_singleton. split; simpl; [done|]. by intros [? ?].
  - intros parsed entries Hparse Hentries.
    change (JSON_parse snapshot_people)
      with (Some (JObj [("/people",
                         JObj [("data", JArr [JStr "Ada"; JStr "Alan"]);
                               ("error", @JNull Z)])])) in Hparse.
    injection Hparse as <-. injection Hentries as <-.
    repeat constructor. intros d e Hd He _.
    injection He as <-. reflexivity.
Defined.

(** C2: the payload [0] is stored as a resolved entry, and the next
    [preloadCachingFetch] for the key issues a second request. *)
Theorem resolved_zero_is_fetched_again :
  cache state_zero !! "/n" = Some (resolved (JNum 0%Z))
  ∧ requests state_zero = ["/n"]
  ∧ (preloadCachingFetch "/n" state_zero).1 = Some 1
  ∧ requests (preloadCachingFetch "/n" state_zero).2 = ["/n"; "/n"].
Proof. repeat split; reflexivity. Qed.

(** C6: for an entry that holds the payload [0], the first render reports
    [isLoading = true] together with the payload, and the effect issues a
    second request. *)
Theorem initial_snapshot_of_zero :
  cache state_zero !! "/n" = Some (resolved (JNum 0%Z))
  ∧ useCachingFetch_initial "/n" (cache state_zero)
    = {| s_data := val (JNum 0%Z); s_error := None; isLoading := true |}
  ∧ (useCachingFetch 7 "/n" state_zero).1 = Some 1
  ∧ requests (useCachingFetch 7 "/n" state_zero).2 = ["/n"; "/n"].
Proof. repeat split; reflexivity. Qed.

(** C8 (as stated) fails: the decoder's error is stored whole, class name
    included, not as a bare message. *)
Lemma decode_error_kept_whole :
  cache (settle 0 (Responded true 200 (inl decode_error)) state_pending) !! "/items"
  = Some (failed decode_error)
  ∧ ¬ message_only decode_error.
Proof. split; [reflexivity|]. unfold message_only. discriminate. Qed.

Lemma failed_retrieval_entry_witness :
  inflight state_pending !! 0 = Some "/items"
  ∧ cache (settle 0 (Responded false 404 (inr JNull)) state_pending) !! "/items"
    = Some (failed (new_Error "Request failed with status 404")).
Proof.
  split; [reflexivity|].
  apply (failed_retrieval_entry state_pending 0 "/items").
  reflexivity.
Defined.

Lemma wipe_then_settle_witness :
  inflight state_pending !! 0 = Some "/items"
  ∧ cache (settle 0 (Responded true 200 (inr (JStr "late")))
                  (step OpWipe state_pending))
    = {[ "/items" := resolved (JStr "late") ]}.
Proof.
  split; [reflexivity|].
  apply (wipe_then_settle state_pending 0 "/items"
           (Responded true 200 (inr (JStr "late")))).
  reflexivity.
Defined.

Lemma initializeCache_empty_error_witness :
  (initializeCache snapshot_empty_error_second store_people).1 !! "/x"
  = Some {| data := val JNull; error := None; promise := None |}.
Proof.
  edestruct (initializeCache_empty_error snapshot_empty_error_second store_people
               (JObj [("/a", JObj [("data", JNum 1%Z); ("error", JNull)]);
                      ("/x", JObj [("data", JNull); ("error", JStr EmptyString)])])
               [("/a", JObj [("data", JNum 1%Z); ("error", JNull)])] [] "/x"
               [("data", JNull); ("error", JStr EmptyString)])
    as [Hreached _];
    [discriminate|reflexivity|reflexivity| |reflexivity|].
  { apply (bool_decide_unpack _). reflexivity. }
  apply Hreached. repeat constructor. by eexists.
Defined.

(** C10 (as stated) fails: the entry with the empty message comes after a
    [null] entry, at which the loop stops, and is not installed. *)
Lemma empty_error_not_reached :
  JSON_parse snapshot_null_first
  = Some (JObj [("/a", JNull);
                ("/x", JObj [("data", JNull); ("error", JStr EmptyString)])])
  ∧ (initializeCache snapshot_null_first ∅).1 !! "/x" = None.
Proof. split; reflexivity. Qed.

End Runs.

(** ** What a snapshot holds *)
Section Snapshot.
Context `{JsRuntime}.
Implicit Types (c : gmap string CacheEntry).

Lemma obj_put_inv {A} (o : list (string * A)) k v k' v' :
  (k', v') ∈ obj_put o k v → (k' = k ∧ v' = v) ∨ (k', v') ∈ o.
Proof.
  induction o as [|[k0 v0] o IH]; simpl.
  - intros [= -> ->]%list_elem_of_singleton. auto.
  - case_decide; subst; rewrite !elem_of_cons.
    + intros [[= -> ->]|?]; auto.
    + intros [?|[?|?]%IH]; auto.
Qed.

(** Whatever the loop of [serializeCache] has written comes from an entry
    of the store, and not from one under [__proto__]. *)
Lemma loop_origin (l : list (string * CacheEntry))
    (acc : list (string * list (string * unknown))) k r :
  (k, r) ∈ foldl (λ o kv, obj_assign o kv.1 (snapshot_entry kv.2)) acc l →
  (k, r) ∈ acc
  ∨ (k ≠ "__proto__" ∧ ∃ e, (k, e) ∈ l ∧ r = snapshot_entry e).
Proof.
  revert acc. induction l as [|[k0 e0] l IH]; intros acc; simpl; [auto|].
  intros [Hacc|(Hk & e & Hin & ->)]%IH.
  - unfold obj_assign in Hacc. simpl in Hacc. case_decide; [auto|].
    apply obj_put_inv in Hacc as [[-> ->]|?]; [|auto].
    right. split; [done|]. exists e0. split; [apply elem_of_cons; auto|done].
  - right. split; [done|]. exists e. split; [apply elem_of_cons; auto|done].
Qed.



End Snapshot.

(** ** From the producer to the consumer *)
Section Handover.
Context `{JsRuntime}.
Implicit Types (c : gmap string CacheEntry) (st : State).

(** A hit, seen from a caller: nothing is awaited, no request is issued,
    and the first render and the effect both show the entry. *)
Lemma hit_summary st k e who cid :
  cache st !! k = Some e →
  has_data_or_error (Some e) = true →
  who ≠ Direct →
  (call k who st).1 = None
  ∧ requests (call k who st).2 = requests st
  ∧ useCachingFetch_initial k (cache st)
    = {| s_data := or_null (data e); s_error := error e; isLoading := false |}
  ∧ hooks (useCachingFetch cid k st).2 !! cid
    = Some {| h_url := k;
              view := {| s_data := data e; s_error := error e; isLoading := false |};
              isMounted := true;
              awaiting := None |}.
Proof.
  intros He Hhit Hwho.
  destruct (hit_starts_nothing k who st) as (Hp & _ & Hr & _);
    [by rewrite He|done|].
  split; [done|]. split; [done|]. split.
  - rewrite initial_snapshot_hit by (by rewrite He). by rewrite He.
  - by apply hit_shows_entry.
Qed.

(** The keys of a snapshot that was read back are keys of the store. *)
Lemma snapshot_keys c (l' : list (string * json number)) k :
  l' ≡ₚ prod_map id own_json <$> serializable c →
  k ∈ l'.*1 → k ≠ "__proto__" ∧ is_Some (c !! k).
Proof.
  intros Hperm. rewrite Hperm, <-list_fmap_compose.
  intros ([k' r] & -> & Hr)%list_elem_of_fmap. simpl.
  unfold serializable in Hr.
  apply loop_origin in Hr as [Hr|(Hk & e & He & _)].
  { by apply elem_of_nil in Hr. }
  split; [done|]. exists e. by apply elem_of_map_to_list.
Qed.

(** Where an entry of the store sits in a snapshot that was read back:
    once, among entries that all hydrate. *)
Lemma snapshot_read_back c (l' : list (string * json number)) k e :
  l' ≡ₚ prod_map id own_json <$> serializable c →
  c !! k = Some e → k ≠ "__proto__" →
  ∃ l1 l2, l' = (l1 ++ (k, entry_json e) :: l2)%list
           ∧ Forall (λ kv, is_Some (hydrate kv.2)) l1
           ∧ k ∉ l2.*1.
Proof.
  intros Hperm Hke Hk.
  destruct (serializable_spec c) as (Hnd & Hvals & Hin).
  assert (NoDup l'.*1) as Hnd'.
  { rewrite Hperm, <-list_fmap_compose.
    by rewrite (list_fmap_ext _ fst (serializable c)) by (by intros ? []). }
  assert ((k, entry_json e) ∈ l') as Hin'.
  { rewrite Hperm. apply list_elem_of_fmap.
    exists (k, snapshot_entry e). split; [done|]. by apply Hin. }
  assert (Forall (λ kv, is_Some (hydrate kv.2)) l') as Hok.
  { rewrite Hperm. apply Forall_fmap. eapply Forall_impl; [exact Hvals|].
    intros [k0 r] [e0 Hr]. simpl in *. subst r.
    rewrite hydrate_snapshot_entry. eauto. }
  apply list_elem_of_split in Hin' as (l1 & l2 & ->).
  rewrite fmap_app, fmap_cons in Hnd'. simpl in Hnd'.
  apply NoDup_app in Hnd' as (_ & _ & [Hk2 _]%NoDup_cons).
  apply Forall_app in Hok as [Hok1 _].
  by exists l1, l2.
Qed.

(** X3. What a round trip makes of a store, entry by entry.  Whenever the
    runtime reads back the snapshot it wrote (up to the order of the
    keys), [initializeCache (serializeCache ())] installs under every key
    of the store other than [__proto__] the [data] of its entry, without
    any promise (a pending entry comes back settled) and with a plain
    [Error] of the same message in place of its error (the class name is
    lost, and an empty message leaves [null]); every other key of the
    store loaded into keeps its entry. *)
Theorem dump_load_entries
    (c target : gmap string CacheEntry) (l' : list (string * json number)) :
  serializeCache c ≠ EmptyString →
  JSON_parse (serializeCache c) = Some (JObj l') →
  l' ≡ₚ prod_map id own_json <$> serializable c →
  (∀ k e, c !! k = Some e → k ≠ "__proto__" →
     (initializeCache (serializeCache c) target).1 !! k = Some (rehydrated e))
  ∧ (∀ k, c !! k = None ∨ k = "__proto__" →
     (initializeCache (serializeCache c) target).1 !! k = target !! k).
Proof.
  intros Hs Hparse Hperm.
  destruct (serializeCache c) as [|a s] eqn:Hser; [done|].
  unfold initializeCache, initializeCache_try. rewrite Hparse. simpl. split.
  - intros k e Hke Hk.
    destruct (snapshot_read_back c l' k e) as (l1 & l2 & -> & Hok & Hk2);
      [done..|].
    apply forEach_set_reached; [done| |done].
    unfold entry_json. by rewrite hydrate_snapshot_entry.
  - intros k Hk. apply forEach_set_other. intros Hin.
    destruct (snapshot_keys c l' k Hperm Hin) as [Hproto [e He]].
    destruct Hk; congruence.
Qed.

(** X4. Hydration spares the request.  When [initializeCache] has
    installed an entry with truthy data, or with an error, from a snapshot
    entry that its loop reaches and that no later entry overwrites, then a
    component or a preload asking for the key awaits nothing and issues
    no request, and the component shows the hydrated entry with
    [isLoading = false] from its first render on. *)
Theorem hydrated_key_is_hit
    (s : string) (st : State) (parsed : json number)
    (l1 l2 : list (string * json number)) (k : string) (value : json number)
    (e : CacheEntry) (who : Caller) (cid : nat) :
  s ≠ EmptyString →
  JSON_parse s = Some parsed →
  Object_entries parsed = Some (l1 ++ (k, value) :: l2)%list →
  Forall (λ kv, is_Some (hydrate kv.2)) l1 →
  k ∉ l2.*1 →
  hydrate value = Some e →
  has_data_or_error (Some e) = true →
  who ≠ Direct →
  let st' := step (OpInitialize s) st in
  (call k who st').1 = None
  ∧ requests (call k who st').2 = requests st
  ∧ useCachingFetch_initial k (cache st')
    = {| s_data := or_null (data e); s_error := error e; isLoading := false |}
  ∧ hooks (useCachingFetch cid k st').2 !! cid
    = Some {| h_url := k;
              view := {| s_data := data e; s_error := error e; isLoading := false |};
              isMounted := true;
              awaiting := None |}.
Proof.
  intros Hs Hparse Hentries Hl1 Hk Hvalue Hhit Hwho st'.
  assert (cache st' !! k = Some e) as He.
  { subst st'. simpl. destruct s as [|a s]; [done|].
    unfold initializeCache, initializeCache_try. rewrite Hparse, Hentries. simpl.
    by apply forEach_set_reached. }
  by apply (hit_summary st' k e who cid).
Qed.

(** X5. Server to client.  The server's store holds, under a key other
    than [__proto__], an entry with truthy data or with an error whose
    message is not empty; the client hydrates the string the server
    serialized, and the runtime reads it back.  Then, whatever the
    client's state was, a component or a preload asking for the key issues
    no request, and the component shows the server's [data] and an error
    of the server's message with [isLoading = false] from its first render
    on. *)
Theorem server_to_client
    (c : gmap string CacheEntry) (st : State) (l' : list (string * json number))
    (k : string) (e : CacheEntry) (who : Caller) (cid : nat) :
  serializeCache c ≠ EmptyString →
  JSON_parse (serializeCache c) = Some (JObj l') →
  l' ≡ₚ prod_map id own_json <$> serializable c →
  c !! k = Some e →
  k ≠ "__proto__" →
  has_data_or_error (Some (rehydrated e)) = true →
  who ≠ Direct →
  let st' := step (OpInitialize (serializeCache c)) st in
  (call k who st').1 = None
  ∧ requests (call k who st').2 = requests st
  ∧ useCachingFetch_initial k (cache st')
    = {| s_data := or_null (data e);
         s_error := error (rehydrated e);
         isLoading := false |}
  ∧ hooks (useCachingFetch cid k st').2 !! cid
    = Some {| h_url := k;
              view := {| s_data := data e;
                         s_error := error (rehydrated e);
                         isLoading := false |};
              isMounted := true;
              awaiting := None |}.
Proof.
  intros Hs Hparse Hperm Hke Hk Hhit Hwho st'.
  assert (cache st' !! k = Some (rehydrated e)) as He.
  { subst st'. simpl.
    destruct (snapshot_read_back c l' k e) as (l1 & l2 & -> & Hok & Hk2);
      [done..|].
    destruct (serializeCache c) as [|a s] eqn:Hser; [done|].
    unfold initializeCache, initializeCache_try. rewrite Hparse. simpl.
    apply forEach_set_reached; [done| |done].
    unfold entry_json. by rewrite hydrate_snapshot_entry. }
  by apply (hit_summary st' k (rehydrated e) who cid).
Qed.

(** The callback throws in two cases only. *)
Lemma hydrate_None (value : json number) :
  hydrate value = None ↔
  value = JNull
  ∨ ∃ j, get value "error" = Some (val j) ∧ truthy j = true ∧ ToString j = None.
Proof.
  unfold hydrate. split.
  - destruct value as [| | | | |fields]; simpl; try done; [auto|].
    destruct (assoc "error" fields) as [j|] eqn:Hj; simpl; [|done].
    destruct (truthy j) eqn:Htruthy; [|done].
    destruct (ToString j) eqn:Hstr; [done|]. right. by exists j.
  - intros [->|(j & Hj & Htruthy & Hstr)]; [done|].
    destruct (get value "data"); [|done]. simpl.
    rewrite Hj. simpl. by rewrite Htruthy, Hstr.
Qed.

(** X6. An entry at which the callback throws ends the load where it
    stands.  The callback throws at an entry that is [null] (reading its
    [data]) and at an entry whose [error] is truthy and cannot be converted
    to a string by [new Error] (an object with an own [toString] key, or an
    array holding one).  [initializeCache] still returns normally, the
    entries before that one are installed, and neither it nor any entry
    after it is; in particular a key that occurs only from there on keeps
    what the store had. *)
Theorem initializeCache_stops_at_throw
    (s : string) (c : gmap string CacheEntry) (parsed : json number)
    (l1 l2 : list (string * json number)) (k : string) (value : json number) :
  s ≠ EmptyString →
  JSON_parse s = Some parsed →
  Object_entries parsed = Some (l1 ++ (k, value) :: l2)%list →
  Forall (λ kv, is_Some (hydrate kv.2)) l1 →
  value = JNull
  ∨ (∃ j, get value "error" = Some (val j) ∧ truthy j = true ∧ ToString j = None) →
  initializeCache s c = ((forEach_set l1 c).1, Normal)
  ∧ (forEach_set l1 c).2 = Normal
  ∧ ∀ k', k' ∉ l1.*1 → (initializeCache s c).1 !! k' = c !! k'.
Proof.
  intros Hs Hparse Hentries Hl1 Hthrow%hydrate_None.
  assert (∀ c0, forEach_set (l1 ++ (k, value) :: l2) c0
                = ((forEach_set l1 c0).1, Abrupt)
                ∧ (forEach_set l1 c0).2 = Normal) as Hloop.
  { clear Hentries.
    induction Hl1 as [|[u v] l1 [e He] _ IH]; intros c0; simpl.
    - by rewrite Hthrow.
    - simpl in He. rewrite He. apply IH. }
  destruct (Hloop c) as [Hstop Hbefore].
  assert (initializeCache s c = ((forEach_set l1 c).1, Normal)) as Heq.
  { destruct s as [|a s]; [done|].
    unfold initializeCache, initializeCache_try.
    by rewrite Hparse, Hentries, Hstop. }
  split; [done|]. split; [done|].
  intros k' Hk'. rewrite Heq. simpl. by apply forEach_set_other.
Qed.

(** X7. Every operation writes only the keys it is about: a call, the key
    called for; a settling retrieval, the key it was started for; a
    hydration, the keys of its snapshot.  The entry of any other key,
    pending or not, is as it was. *)
Theorem other_keys_untouched (op : Op) (st : State) (k : string) :
  ¬ touches op st k →
  cache (step op st) !! k = cache st !! k.
Proof.
  intros Hk. destruct op as [url who|p r|s| |cid]; simpl in *.
  - destruct (call_cache url who st) as [->| ->]; [done|].
    by rewrite lookup_insert_ne by congruence.
  - unfold settle. destruct (inflight st !! p) as [url|] eqn:Hp; [|done].
    simpl. apply lookup_insert_ne. congruence.
  - destruct s as [|a s]; [done|]. simpl. unfold initializeCache_try.
    destruct (JSON_parse (String a s)) as [parsed|] eqn:Hparse; [|done].
    destruct (Object_entries parsed) as [l|] eqn:Hentries; [|done].
    apply forEach_set_other. intros Hin. apply Hk. eauto.
  - done.
  - unfold cleanup. by destruct (hooks st !! cid).
Qed.

End Handover.

(** ** Over the life of a page *)
Section Lifetime.
Context `{JsRuntime}.
Implicit Types (st : State) (op : Op) (ops : list Op).

Lemma initial_well_formed : well_formed initial.
Proof.
  split; simpl.
  - intros k e p Hk. by rewrite lookup_empty in Hk.
  - intros p k Hp. by rewrite lookup_empty in Hp.
Qed.

Lemma run_well_formed ops st : well_formed st → well_formed (run ops st).
Proof.
  revert st. induction ops as [|op ops IH]; intros st Hst; [done|].
  simpl. by apply IH, step_well_formed.
Qed.

Lemma run_app (ops1 ops2 : list Op) st :
  run (ops1 ++ ops2) st = run ops2 (run ops1 st).
Proof. apply foldl_app. Qed.

(** Only the network's answer takes a retrieval out of flight. *)
Lemma inflight_kept op st p k :
  well_formed st → inflight st !! p = Some k → ¬ settles p op →
  inflight (step op st) !! p = Some k.
Proof.
  intros [_ Hlog] Hp Hop. destruct op as [url who|q r|s| |cid]; simpl in *.
  - destruct (call_effect url who st) as [(_ & _ & ->)|(_ & _ & _ & ->)]; [done|].
    rewrite lookup_insert_ne; [done|].
    intros <-. apply Hlog, lookup_lt_Some in Hp. lia.
  - unfold settle. destruct (inflight st !! q); [|done]. simpl.
    by rewrite lookup_delete_ne.
  - done.
  - done.
  - unfold cleanup. by destruct (hooks st !! cid).
Qed.

Lemma run_inflight_kept ops st p k :
  well_formed st → inflight st !! p = Some k →
  Forall (λ op, ¬ settles p op) ops →
  inflight (run ops st) !! p = Some k.
Proof.
  intros Hst Hp Hops. revert st Hst Hp.
  induction Hops as [|op ops Hop _ IH]; intros st Hst Hp; [done|].
  simpl. apply IH; [by apply step_well_formed|by apply inflight_kept].
Qed.

(** X8. No cancellation.  In a state the module can reach, a retrieval
    that is in flight stays in flight through every operation other than
    its own settlement (calls, other settlements, hydrations, wipes,
    unmounts), and when it settles its outcome is what the store holds
    under its key, whatever the store held there before. *)
Theorem retrieval_always_lands
    (before after : list Op) (p : nat) (k : string) (r : FetchResult) :
  inflight (run before initial) !! p = Some k →
  Forall (λ op, ¬ settles p op) after →
  inflight (run (before ++ after) initial) !! p = Some k
  ∧ cache (settle p r (run (before ++ after) initial)) !! k = Some (outcome r).
Proof.
  intros Hp Hafter. rewrite run_app.
  assert (inflight (run after (run before initial)) !! p = Some k) as Hfly.
  { apply run_inflight_kept; [|done..].
    apply run_well_formed, initial_well_formed. }
  split; [done|]. by destruct (settle_window k _ p r Hfly).
Qed.

(** A component that is not rendered anew keeps its flag and its state
    unless a retrieval it awaits settles while it is mounted. *)
Lemma unmounted_kept op st c h :
  hooks st !! c = Some h → isMounted h = false → ¬ remounts c op →
  ∃ h', hooks (step op st) !! c = Some h'
        ∧ isMounted h' = false ∧ view h' = view h.
Proof.
  intros Hc Hm Hop. destruct op as [url who|p r|s| |cid]; simpl in *.
  - destruct who as [c'| |]; simpl.
    + unfold useCachingFetch, effect, render. simpl. rewrite lookup_insert_eq.
      unfold useCachingFetch_effect. simpl.
      destruct (has_data_or_error (cache st !! url)); simpl.
      * exists h. by rewrite !lookup_insert_ne.
      * unfold fetchAndCache. simpl.
        destruct (cache st !! url ≫= promise); simpl;
          exists h; by rewrite !lookup_insert_ne.
    + unfold preloadCachingFetch.
      destruct (has_data_or_error (cache st !! url)); [by exists h|].
      unfold fetchAndCache.
      destruct (cache st !! url ≫= promise); simpl; by exists h.
    + unfold fetchAndCache.
      destruct (cache st !! url ≫= promise); simpl; by exists h.
  - unfold settle. destruct (inflight st !! p) as [url|]; [|by exists h]. simpl.
    rewrite lookup_fmap, Hc. simpl.
    case_decide; [|by exists h].
    unfold on_settled. rewrite Hm. by eexists.
  - by exists h.
  - by exists h.
  - unfold cleanup. destruct (hooks st !! cid) as [h0|] eqn:Hcid; [|by exists h].
    simpl. destruct (decide (cid = c)) as [->|Hne].
    + rewrite lookup_insert_eq. eexists. split; [done|]. simpl.
      split; [done|]. congruence.
    + rewrite lookup_insert_ne by done. by exists h.
Qed.

(** X9. Nothing is delivered to a component that was torn down.  Once the
    cleanup of its effect has run, whatever happens next short of the
    component being rendered anew (retrievals settling, the one it waited
    for included; other callers; hydrations; wipes) leaves the
    [{ isLoading, data, error }] it holds as they were. *)
Theorem unmounted_hook_keeps_view
    (st : State) (c : nat) (h : Hook) (ops : list Op) :
  hooks st !! c = Some h →
  Forall (λ op, ¬ remounts c op) ops →
  view <$> hooks (run ops (cleanup c st)) !! c = Some (view h).
Proof.
  intros Hc Hops.
  assert (∃ h', hooks (cleanup c st) !! c = Some h'
                ∧ isMounted h' = false ∧ view h' = view h) as Hstart.
  { unfold cleanup. rewrite Hc. simpl. rewrite lookup_insert_eq. by eexists. }
  revert Hstart. generalize (cleanup c st). clear Hc.
  induction Hops as [|op ops Hop _ IH]; intros st0 (h' & Hc & Hm & Hv).
  - simpl. by rewrite Hc, <-Hv.
  - simpl. apply IH.
    destruct (unmounted_kept op st0 c h' Hc Hm Hop) as (h'' & ? & ? & ?).
    exists h''. split; [done|]. split; [done|]. congruence.
Qed.

(** A component or a preload starts a retrieval only on a miss. *)
Lemma public_call_effect url who st :
  who ≠ Direct →
  (cache (call url who st).2 = cache st
   ∧ requests (call url who st).2 = requests st
   ∧ inflight (call url who st).2 = inflight st)
  ∨ (has_data_or_error (cache st !! url) = false
     ∧ cache st !! url ≫= promise = None
     ∧ cache (call url who st).2
       = <[url := {| data := or_null (data_of (cache st !! url));
                     error := None;
                     promise := Some (length (requests st)) |}]> (cache st)
     ∧ requests (call url who st).2 = (requests st ++ [url])%list
     ∧ inflight (call url who st).2 = <[length (requests st) := url]> (inflight st)).
Proof.
  intros Hwho. destruct who as [c| |]; [| |done]; simpl.
  - unfold useCachingFetch, effect, render. simpl. rewrite lookup_insert_eq.
    unfold useCachingFetch_effect. simpl.
    destruct (has_data_or_error (cache st !! url)) eqn:Hhit; [by left|].
    unfold fetchAndCache. simpl.
    destruct (cache st !! url ≫= promise) eqn:Hp; simpl; [by left|by right].
  - unfold preloadCachingFetch.
    destruct (has_data_or_error (cache st !! url)) eqn:Hhit; [by left|].
    unfold fetchAndCache.
    destruct (cache st !! url ≫= promise) eqn:Hp; simpl; [by left|by right].
Qed.

Lemma step_fetched_once op st : steady op → fetched_once st → fetched_once (step op st).
Proof.
  intros Hop [Hnd Hreq]. destruct op as [url who|p r|s| |cid]; simpl in *;
    try done.
  - assert (who ≠ Direct) as Hwho by (by destruct who).
    unfold fetched_once.
    destruct (public_call_effect url who st Hwho)
      as [(-> & -> & _)|(Hmiss & Hnone & -> & -> & _)]; [done|].
    assert (url ∉ requests st) as Hfresh.
    { intros (e & He & [[p Hp]|Hhit])%Hreq.
      - rewrite He in Hnone. simpl in Hnone. congruence.
      - rewrite He in Hmiss. congruence. }
    split.
    + apply NoDup_app. split; [done|]. split; [|apply NoDup_singleton].
      intros k Hk ->%list_elem_of_singleton. done.
    + intros k [Hk| ->%list_elem_of_singleton]%elem_of_app.
      * destruct (Hreq k Hk) as (e & He & Hgood).
        exists e. split; [|done]. rewrite lookup_insert_ne; [done|].
        by intros <-.
      * eexists. rewrite lookup_insert_eq. split; [done|]. left. by eexists.
  - unfold settle. destruct (inflight st !! p) as [url|]; [|done].
    split; [done|]. simpl. intros k Hk.
    destruct (decide (url = k)) as [<-|Hne].
    + exists (outcome r). rewrite lookup_insert_eq. auto.
    + rewrite lookup_insert_ne by done. auto.
  - unfold cleanup. by destruct (hooks st !! cid).
Qed.

(** X10. One request per url.  On a page that neither hydrates nor wipes,
    where components and preloads call and unmount as they please and the
    network answers with errors or with truthy payloads, no url is ever
    requested twice, and no two retrievals for one url are ever in flight
    together. *)
Theorem one_request_per_url (ops : list Op) :
  Forall steady ops →
  NoDup (requests (run ops initial))
  ∧ ∀ p q k, inflight (run ops initial) !! p = Some k →
             inflight (run ops initial) !! q = Some k → p = q.
Proof.
  intros Hops.
  assert (fetched_once (run ops initial)) as [Hnd _].
  { assert (fetched_once initial) as Hinit.
    { split; [constructor|]. intros k Hk. by apply elem_of_nil in Hk. }
    revert Hinit. generalize initial.
    induction Hops as [|op ops Hop _ IH]; intros st Hst; [done|].
    simpl. by apply IH, step_fetched_once. }
  split; [done|]. intros p q k Hp Hq.
  destruct (run_well_formed ops initial initial_well_formed) as [_ Hlog].
  eapply NoDup_lookup; [exact Hnd|by apply Hlog..].
Qed.

(** X12. A wipe forgets every hit.  After [wipeCache], callers asking for
    a key one after the other, whatever the store held for it before the
    wipe, issue exactly one request between them; the store then holds
    the pending entry of that key and nothing else, and every caller is
    handed its promise. *)
Theorem wipe_then_call (st : State) (url : string) (callers : list Caller) :
  callers ≠ [] →
  requests (calls url callers (step OpWipe st)).2 = (requests st ++ [url])%list
  ∧ cache (calls url callers (step OpWipe st)).2
    = {[ url := pending_entry (length (requests st)) ]}
  ∧ Forall (λ r, r = Some (length (requests st)))
           (calls url callers (step OpWipe st)).1.
Proof.
  intros Hne. destruct callers as [|w rest]; [done|]. simpl.
  rewrite (call_first url w) by done. simpl.
  set (p := length (requests st)).
  set (st1 := {| cache := <[url := pending_entry p]> (wipeCache (cache st));
                 requests := requests st ++ [url];
                 inflight := <[p := url]> (inflight st);
                 hooks := match w with
                          | ViaHook c => <[c := waiting_hook url p]> (hooks st)
                          | _ => hooks st
                          end |}).
  destruct (calls_riders url rest st1 p) as (Hps & Hc & Hr & _);
    [apply lookup_insert_eq|apply lookup_insert_eq|].
  destruct (calls url rest st1) as [ps st2] eqn:Hcalls. simpl in *.
  split; [done|]. split; [|by constructor].
  rewrite Hc. unfold wipeCache. by rewrite insert_empty.
Qed.

End Lifetime.

(** ** Snapshots that are not records of entries *)
Section Shapes.
Context `{JsRuntime}.

(** When no key occurs twice and no entry throws, every entry of the
    snapshot is installed. *)
Lemma forEach_set_lookup (l : list (string * json number))
    (c : gmap string CacheEntry) k v :
  NoDup l.*1 → Forall (λ kv, is_Some (hydrate kv.2)) l → (k, v) ∈ l →
  (forEach_set l c).1 !! k = hydrate v.
Proof.
  intros Hnd Hok (l1 & l2 & ->)%list_elem_of_split.
  rewrite fmap_app, fmap_cons in Hnd. simpl in Hnd.
  apply NoDup_app in Hnd as (_ & _ & [Hk2 _]%NoDup_cons).
  apply Forall_app in Hok as [Hok1 [[e He] _]%Forall_cons].
  simpl in He. rewrite He. by apply forEach_set_reached.
Qed.

(** X13. A snapshot that is a JSON array is not refused.  When the string
    parses to an array at none of whose elements the callback throws (no
    element is [null] or carries an error that [new Error] cannot convert),
    [initializeCache] installs one entry per element under the decimal
    index of the element: the element's own [data] and [error] when it is
    an object, and [data: undefined, error: null] when it is a number, a
    string, a boolean or an array. *)
Theorem array_snapshot_installs_indices
    (s : string) (c : gmap string CacheEntry) (items : list (json number))
    (i : nat) (x : json number) :
  s ≠ EmptyString →
  JSON_parse s = Some (JArr items) →
  Forall (λ y, is_Some (hydrate y)) items →
  items !! i = Some x →
  (initializeCache s c).1 !! pretty i = hydrate x
  ∧ ((∀ fields, x ≠ JObj fields) →
       hydrate x = Some {| data := undefined; error := None; promise := None |}).
Proof.
  intros Hs Hparse Hitems Hi.
  assert (is_Some (hydrate x)) as Hx
    by (eapply (proj1 (Forall_forall _ _) Hitems), list_elem_of_lookup_2, Hi).
  split.
  - destruct s as [|a s]; [done|].
    unfold initializeCache, initializeCache_try. rewrite Hparse. simpl.
    apply forEach_set_lookup.
    + apply NoDup_alt. intros n m k.
      rewrite !list_lookup_fmap, !list_lookup_imap.
      destruct (items !! n), (items !! m); simpl; try done.
      intros [= <-] [= Heq]. by apply (inj pretty).
    + apply Forall_forall. intros [k v] (n & y & [= -> ->] & Hy)%elem_of_lookup_imap.
      simpl.
      eapply (proj1 (Forall_forall _ _) Hitems), list_elem_of_lookup_2, Hy.
    + by apply (elem_of_lookup_imap_2 (λ n y, (pretty n, y))).
  - intros Hshape.
    destruct x as [| | | | |fields]; try done.
    + by destruct Hx.
    + by destruct (Hshape fields).
Qed.

End Shapes.

(** ** Further runs on the reference runtime *)
Section FurtherRuns.
Import Reference Examples.


Lemma dump_load_entries_witness :
  (initializeCache (serializeCache store_people) ∅).1 !! "/missing"
  = Some (rehydrated (failed (new_Error "Request failed with status 404"))).
Proof.
  edestruct (dump_load_entries store_people ∅ people_read_back) as [Hin _];
    [discriminate|reflexivity|reflexivity|].
  apply Hin; [reflexivity|discriminate].
Defined.

Lemma hydrated_key_is_hit_witness :
  (call "/people" ViaPreload (step (OpInitialize snapshot_people) state_zero)).1
  = None
  ∧ requests
      (call "/people" ViaPreload (step (OpInitialize snapshot_people) state_zero)).2
    = requests state_zero.
Proof.
  edestruct (hydrated_key_is_hit snapshot_people state_zero
               (JObj [("/people",
                       JObj [("data", JArr [JStr "Ada"; JStr "Alan"]);
                             ("error", JNull)])])
               [] [] "/people"
               (JObj [("data", JArr [JStr "Ada"; JStr "Alan"]); ("error", JNull)])
               (resolved (JArr [JStr "Ada"; JStr "Alan"])) ViaPreload 0)
    as (Hnone & Hrequests & _);
    [discriminate|reflexivity|reflexivity|constructor|apply not_elem_of_nil
    |reflexivity|reflexivity|discriminate|].
  split; [exact Hnone|exact Hrequests].
Defined.

Lemma server_to_client_witness :
  requests
    (call "/people" (ViaHook 3)
       (step (OpInitialize (serializeCache store_people)) state_zero)).2
  = requests state_zero.
Proof.
  edestruct (server_to_client store_people state_zero people_read_back "/people"
               (resolved (JArr [JStr "Ada"; JStr "Alan"])) (ViaHook 3) 3)
    as (_ & Hrequests & _);
    [discriminate|reflexivity|reflexivity|reflexivity|discriminate
    |reflexivity|discriminate|].
  exact Hrequests.
Defined.

Lemma initializeCache_stops_at_throw_witness :
  (initializeCache snapshot_unprintable_error ∅).1 !! "/a"
  = Some (resolved (JNum 1%Z))
  ∧ (initializeCache snapshot_unprintable_error ∅).1 !! "/b" = None
  ∧ (initializeCache snapshot_unprintable_error ∅).1 !! "/c" = None.
Proof.
  split; [reflexivity|].
  edestruct (initializeCache_stops_at_throw (H:=runtime)
               snapshot_unprintable_error ∅
               (JObj [("/a", JObj [("data", JNum 1%Z); ("error", JNull)]);
                      ("/b", JObj [("data", JNum 2%Z);
                                   ("error", JObj [("toString", JNum 1%Z)])]);
                      ("/c", JObj [("data", JNum 3%Z); ("error", JNull)])])
               [("/a", JObj [("data", JNum 1%Z); ("error", JNull)])]
               [("/c", JObj [("data", JNum 3%Z); ("error", JNull)])] "/b"
               (JObj [("data", JNum 2%Z); ("error", JObj [("toString", JNum 1%Z)])]))
    as (_ & _ & Hrest);
    [discriminate|reflexivity|reflexivity|repeat constructor; by eexists| |].
  { right. exists (JObj [("toString", JNum 1%Z)]). by repeat split. }
  split; (rewrite Hrest; [reflexivity|]); intros [=]%list_elem_of_singleton.
Defined.

Lemma other_keys_untouched_witness :
  cache state_two_pending !! "/other" = Some (pending_entry 1)
  ∧ cache (step (OpSettle 0 (answer "late")) state_two_pending) !! "/other"
    = cache state_two_pending !! "/other".
Proof.
  split; [reflexivity|].
  apply (other_keys_untouched (OpSettle 0 (answer "late")) state_two_pending "/other").
  simpl. discriminate.
Defined.

Lemma retrieval_always_lands_witness :
  inflight (run [OpCall "/items" ViaPreload] initial) !! 0 = Some "/items"
  ∧ cache (settle 0 (answer "late")
             (run ([OpCall "/items" ViaPreload] ++ meanwhile) initial)) !! "/items"
    = Some (resolved (JStr "late")).
Proof.
  split; [reflexivity|].
  apply (retrieval_always_lands [OpCall "/items" ViaPreload] meanwhile
           0 "/items" (answer "late")); [reflexivity|].
  repeat constructor; simpl; tauto.
Defined.

Lemma unmounted_hook_keeps_view_witness :
  hooks state_waiting !! 1 = Some (waiting_hook "/items" 0)
  ∧ view <$> hooks (run [OpSettle 0 (answer "late"); OpWipe]
                        (cleanup 1 state_waiting)) !! 1
    = Some {| s_data := val JNull; s_error := None; isLoading := true |}.
Proof.
  split; [reflexivity|].
  apply (unmounted_hook_keeps_view state_waiting 1 (waiting_hook "/items" 0)
           [OpSettle 0 (answer "late"); OpWipe]); [reflexivity|].
  repeat constructor; simpl; tauto.
Defined.

Lemma one_request_per_url_witness :
  requests (run page_without_ssr initial) = ["/a"]
  ∧ NoDup (requests (run page_without_ssr initial)).
Proof.
  split; [reflexivity|].
  apply (one_request_per_url page_without_ssr).
  repeat constructor.
Defined.

Lemma wipe_then_call_witness :
  cache state_zero !! "/n" = Some (resolved (JNum 0%Z))
  ∧ requests (calls "/n" [ViaHook 1; ViaPreload] (step OpWipe state_zero)).2
    = ["/n"; "/n"].
Proof.
  split; [reflexivity|].
  apply (wipe_then_call state_zero "/n" [ViaHook 1; ViaPreload]).
  discriminate.
Defined.

Lemma array_snapshot_installs_indices_witness :
  (initializeCache snapshot_array ∅).1 !! "1"
  = Some {| data := undefined; error := None; promise := None |}.
Proof.
  edestruct (array_snapshot_installs_indices (H:=runtime) snapshot_array ∅
               [JObj [("data", JNum 1%Z); ("error", JNull)]; JNum 7%Z] 1 (JNum 7%Z))
    as [Hinstalled Hshape]; [discriminate|reflexivity| |reflexivity|].
  { repeat (apply Forall_cons; split; [by eexists|]). apply Forall_nil_2. }
  etransitivity; [exact Hinstalled|]. apply Hshape. discriminate.
Defined.

End FurtherRuns.
